(** * Big-Data-Pipeline-Simulator: a shallow embedding of [Big_Data_pipeline.py]

    The script consists of two classes and a thin Streamlit driver:

    - [PipelineDAG] wraps a [networkx.DiGraph] (nodes with a [type]
      attribute, directed edges) and colours one node when drawing;
    - [SparkSim] keeps a list of [(key, value)] records, a stage counter and
      a log, and offers [map], [filter], [reduceByKey] and [reset];
    - the driver picks the pipeline description (uploaded JSON or the
      built-in default), builds the graph, dispatches the "Next Stage"
      button on the stage counter and shows two metrics.

    Python lists are mutable objects that can be reached through several
    references ([self.original = data] stores the caller's list itself), so
    the simulator is modelled over an explicit heap of list objects, with a
    small state-and-failure monad.  Python dictionaries keep insertion
    order, so they are modelled as association lists with unique keys. *)

From stdpp Require Import base option list strings gmap.
From Stdlib Require Import ZArith Lia.

(** ** Insertion-ordered dictionaries with string keys *)

Module PyDict.
Section ordered_dict.
Context {V : Type}.

(** [d.get(k)] *)
Fixpoint get (k : string) (d : list (string * V)) : option V :=
  match d with
  | [] => None
  | (k', v) :: d' => if decide (k = k') then Some v else get k d'
  end.

(** [d[k] = v]: an existing key keeps its position, a new key goes last. *)
Fixpoint set (k : string) (v : V) (d : list (string * V)) : list (string * V) :=
  match d with
  | [] => [(k, v)]
  | (k', v') :: d' =>
      if decide (k = k') then (k', v) :: d' else (k', v') :: set k v d'
  end.

(** [list(d)], the keys in iteration order *)
Definition keys (d : list (string * V)) : list string := d.*1.

(** [k in d] *)
Definition contains (k : string) (d : list (string * V)) : bool :=
  bool_decide (k ∈ keys d).
End ordered_dict.
End PyDict.

(** ** The heap of Python list objects *)

(** A record of the data set: [(key, value)] with an integer value. *)
Definition record : Type := string * Z.

(** The two kinds of list the simulator allocates. *)
Inductive obj : Type :=
  | ORecords (rs : list record)
  | OLogs (ls : list string).

Abbreviation loc := positive (only parsing).
Abbreviation heap := (gmap positive obj) (only parsing).

(** Computations that read and write the heap and may raise. [None] stands
    for a Python exception (or a reference to no object of the right kind). *)
Definition M (A : Type) : Type := heap -> option (A * heap).

Definition ret {A} (a : A) : M A := fun h => Some (a, h).

Definition bind {A B} (m : M A) (k : A -> M B) : M B :=
  fun h => match m h with
           | Some (a, h') => k a h'
           | None => None
           end.

Notation "'let!' x ':=' m 'in' k" := (bind m (fun x => k))
  (at level 10, x pattern, m at level 100, k at level 200, only parsing).
Notation "'do!' m 'in' k" := (bind m (fun _ => k))
  (at level 10, m at level 100, k at level 200, only parsing).

(** A new list object at an unused address *)
Definition new_obj (o : obj) : M loc :=
  fun h => let l := fresh (dom h) in Some (l, <[l := o]> h).

Definition get_records (l : loc) : M (list record) :=
  fun h => match h !! l with
           | Some (ORecords rs) => Some (rs, h)
           | _ => None
           end.

Definition get_logs (l : loc) : M (list string) :=
  fun h => match h !! l with
           | Some (OLogs ls) => Some (ls, h)
           | _ => None
           end.

(** In-place update of the object at [l] *)
Definition store (l : loc) (o : obj) : M unit :=
  fun h => Some (tt, <[l := o]> h).

(** [l.copy()]: a new list with the same elements *)
Definition list_copy (l : loc) : M loc :=
  let! rs := get_records l in new_obj (ORecords rs).

(** [l.append(s)] on a list of log lines *)
Definition logs_append (l : loc) (s : string) : M unit :=
  let! ls := get_logs l in store l (OLogs (ls ++ [s])).

(** [l.clear()] on a list of log lines *)
Definition logs_clear (l : loc) : M unit :=
  do! get_logs l in store l (OLogs []).

(** Python's [sum] on integers *)
Definition py_sum (vs : list Z) : Z := foldl Z.add 0%Z vs.

(** ** [class SparkSim] *)

Module SparkSim.

(** The attributes of an instance; the three lists are references. *)
Record t : Type := Build {
  original : loc;
  data : loc;
  stage : Z;
  logs : loc
}.

Definition set_data (l : loc) (s : t) : t :=
  Build (original s) l (stage s) (logs s).
Definition set_stage (n : Z) (s : t) : t :=
  Build (original s) (data s) n (logs s).

Definition map_line : string := "→ map: Multiplied each value by 2".
Definition filter_line : string :=
  "→ filter: Removed entries where key == 'banana'".
Definition reduce_line : string :=
  "→ reduceByKey: Summed values grouped by key".

(** The loop filling [grouped = defaultdict(list)]: a missing key starts
    from the empty list. *)
Definition group_records (rs : list record) : list (string * list Z) :=
  foldl (fun grouped '(k, v) =>
           PyDict.set k (default [] (PyDict.get k grouped) ++ [v]) grouped)
        [] rs.

(** [__init__(self, data)]: [original] is the argument itself, [data] a
    copy of it. *)
Definition __init__ (data0 : loc) : M t :=
  let! d := list_copy data0 in
  let! lg := new_obj (OLogs []) in
  ret (Build data0 d 0 lg).

(** Each transformation appends its line to the log list, binds
    [self.data] to a new list and increments [self.stage]. *)
Definition map (s : t) : M t :=
  do! logs_append (logs s) map_line in
  let! rs := get_records (data s) in
  let! d := new_obj (ORecords ((fun '(k, v) => (k, (v * 2)%Z)) <$> rs)) in
  ret (set_stage (stage s + 1) (set_data d s)).

Definition filter (s : t) : M t :=
  do! logs_append (logs s) filter_line in
  let! rs := get_records (data s) in
  let! d := new_obj (ORecords
              (base.filter (fun item : record => item.1 ≠ "banana") rs)) in
  ret (set_stage (stage s + 1) (set_data d s)).

Definition reduceByKey (s : t) : M t :=
  do! logs_append (logs s) reduce_line in
  let! rs := get_records (data s) in
  let grouped := group_records rs in
  let! d := new_obj (ORecords ((fun '(k, vs) => (k, py_sum vs)) <$> grouped)) in
  ret (set_stage (stage s + 1) (set_data d s)).

Definition reset (s : t) : M t :=
  let! d := list_copy (original s) in
  do! logs_clear (logs s) in
  ret (set_stage 0 (set_data d s)).

End SparkSim.

(** The seed the driver passes to [SparkSim(...)] *)
Definition default_seed : list record :=
  [("apple", 1%Z); ("banana", 1%Z); ("apple", 1%Z); ("carrot", 1%Z)].

(** The "Next Stage" button: dispatch on the stage counter. *)
Definition next_stage (sim : SparkSim.t) : M SparkSim.t :=
  if decide (SparkSim.stage sim = 0%Z) then SparkSim.map sim
  else if decide (SparkSim.stage sim = 1%Z) then SparkSim.filter sim
  else if decide (SparkSim.stage sim = 2%Z) then SparkSim.reduceByKey sim
  else ret sim.

(** The calls a session can make on the simulator: the three
    transformations and [reset] called directly, and the button. *)
Inductive call : Type := Map | Filter | ReduceByKey | Reset | NextStage.

Definition exec (c : call) : SparkSim.t -> M SparkSim.t :=
  match c with
  | Map => SparkSim.map
  | Filter => SparkSim.filter
  | ReduceByKey => SparkSim.reduceByKey
  | Reset => SparkSim.reset
  | NextStage => next_stage
  end.

Fixpoint exec_all (cs : list call) (sim : SparkSim.t) : M SparkSim.t :=
  match cs with
  | [] => ret sim
  | c :: cs' => let! sim' := exec c sim in exec_all cs' sim'
  end.

(** The stage at which the button issues a transformation *)
Definition dispatch_stage (c : call) : option Z :=
  match c with
  | Map => Some 0%Z
  | Filter => Some 1%Z
  | ReduceByKey => Some 2%Z
  | Reset | NextStage => None
  end.

(** The log line a transformation appends *)
Definition log_line (c : call) : option string :=
  match c with
  | Map => Some SparkSim.map_line
  | Filter => Some SparkSim.filter_line
  | ReduceByKey => Some SparkSim.reduce_line
  | Reset | NextStage => None
  end.

(** What happens in a session besides the simulator's own calls: whoever
    built the simulator still holds the list it passed to [SparkSim(...)]
    and may change that list in place ([append], [clear], item assignment),
    leaving it with the elements [rs]. *)
Inductive event : Type :=
  | Call (c : call)
  | SeedMutated (rs : list record).

Definition step (ev : event) (sim : SparkSim.t) : M SparkSim.t :=
  match ev with
  | Call c => exec c sim
  | SeedMutated rs =>
      do! get_records (SparkSim.original sim) in
      do! store (SparkSim.original sim) (ORecords rs) in
      ret sim
  end.

Fixpoint steps (evs : list event) (sim : SparkSim.t) : M SparkSim.t :=
  match evs with
  | [] => ret sim
  | ev :: evs' => let! sim' := step ev sim in steps evs' sim'
  end.

(** [sim = SparkSim(seed)] followed by the calls [cs] *)
Definition session (seed : loc) (cs : list call) : M SparkSim.t :=
  let! sim := SparkSim.__init__ seed in exec_all cs sim.

(** [sim = SparkSim(seed)] followed by the events [evs] *)
Definition shared_session (seed : loc) (evs : list event) : M SparkSim.t :=
  let! sim := SparkSim.__init__ seed in steps evs sim.

(** The elements of the seed list after the events [evs], when it held
    [rs] before them *)
Definition seed_after (rs : list record) (evs : list event) : list record :=
  foldl (fun cur ev => match ev with Call _ => cur | SeedMutated rs' => rs' end)
        rs evs.

Definition is_call (ev : event) : bool :=
  match ev with Call _ => true | SeedMutated _ => false end.

(** ** The metrics panel *)

Inductive metric : Type := TotalUniqueKeys | MaxValue.

(** [max(vs, default=d)]: the first largest element, [d] on an empty list *)
Definition py_max (vs : list Z) (d : Z) : Z :=
  match vs with
  | [] => d
  | v :: vs' => foldl (fun m x => if (m <? x)%Z then x else m) v vs'
  end.

(** The value the panel shows; the panel exists only from stage 3 on. *)
Definition show_metric (m : metric) (sim : SparkSim.t) : M (option Z) :=
  if decide (3 ≤ SparkSim.stage sim)%Z then
    let! rs := get_records (SparkSim.data sim) in
    match m with
    | TotalUniqueKeys => ret (Some (Z.of_nat (length rs)))
    | MaxValue => ret (Some (py_max rs.*2 0%Z))
    end
  else ret None.

(** ** [networkx.DiGraph], as far as the script uses it *)

Module DiGraph.

(** [node_attr] is the dictionary of nodes with, for each, its [type]
    attribute if it has one ([_node] in networkx); [succ] gives each node
    its dictionary of successors ([_succ]); an edge carries no data. *)
Record t : Type := Build {
  node_attr : list (string * option string);
  succ : list (string * list (string * unit))
}.

Definition empty : t := Build [] [].

(** A node met for the first time gets an empty successor dictionary. *)
Definition touch (n : string) (adj : list (string * list (string * unit)))
    : list (string * list (string * unit)) :=
  if PyDict.contains n adj then adj else PyDict.set n [] adj.

(** [G.add_node(n, type=ty)]: a new node is created with the attribute,
    a known node has its attribute updated. *)
Definition add_node (n ty : string) (g : t) : t :=
  Build (PyDict.set n (Some ty) (node_attr g)) (touch n (succ g)).

(** A node created by [add_edge] has no attribute; a known one keeps its
    own. *)
Definition ensure_node (n : string) (g : t) : t :=
  if PyDict.contains n (succ g) then g
  else Build (PyDict.set n None (node_attr g)) (PyDict.set n [] (succ g)).

(** [G.add_edge(u, v)]: both end points are added when missing. *)
Definition add_edge (u v : string) (g : t) : t :=
  let g' := ensure_node v (ensure_node u g) in
  Build (node_attr g')
        (PyDict.set u (PyDict.set v tt (default [] (PyDict.get u (succ g'))))
                    (succ g')).

(** [G.nodes()] *)
Definition nodes (g : t) : list string := PyDict.keys (node_attr g).

(** [G.edges()] *)
Definition edges (g : t) : list (string * string) :=
  '(u, nbrs) ← succ g; (fun v => (u, v)) <$> PyDict.keys nbrs.

(** [nx.get_node_attributes(G, 'type')] *)
Definition get_node_attributes (g : t) : list (string * string) :=
  omap (fun '(n, a) => (fun ty => (n, ty)) <$> a) (node_attr g).

End DiGraph.

(** ** [class PipelineDAG] *)

Module PipelineDAG.

Record t : Type := Build { graph : DiGraph.t }.

Definition __init__ : t := Build DiGraph.empty.

Definition add_node (node_id node_type : string) (d : t) : t :=
  Build (DiGraph.add_node node_id node_type (graph d)).

Definition add_edge (from_node to_node : string) (d : t) : t :=
  Build (DiGraph.add_edge from_node to_node (graph d)).

(** What [draw] hands to [nx.draw], apart from the positions computed by
    the layout library *)
Record drawing : Type := Drawing {
  custom_labels : list (string * string);
  node_colors : list string
}.

Definition newline : string := String (Ascii.ascii_of_nat 10) EmptyString.

(** [f"{n}\n({t})"] *)
Definition label (n ty : string) : string :=
  n +:+ newline +:+ "(" +:+ ty +:+ ")".

(** [draw(self, highlight=None)] *)
Definition draw (highlight : option string) (d : t) : drawing :=
  Drawing
    ((fun '(n, ty) => (n, label n ty)) <$>
       DiGraph.get_node_attributes (graph d))
    ((fun n => if decide (Some n = highlight) then "orange" else "skyblue")
       <$> DiGraph.nodes (graph d)).

(** The nodes drawn in the accent colour *)
Definition highlighted (v : drawing) : nat :=
  length (base.filter (fun c : string => c = "orange") (node_colors v)).

End PipelineDAG.

(** The operations of [PipelineDAG], as data: the graphs of the program
    are those obtained from the empty one by a sequence of them. *)
Inductive dag_op : Type :=
  | AddNode (node_id node_type : string)
  | AddEdge (from_node to_node : string).

Definition apply_op (d : PipelineDAG.t) (op : dag_op) : PipelineDAG.t :=
  match op with
  | AddNode n ty => PipelineDAG.add_node n ty d
  | AddEdge u v => PipelineDAG.add_edge u v d
  end.

Definition apply_ops (ops : list dag_op) : PipelineDAG.t :=
  foldl apply_op PipelineDAG.__init__ ops.

(** ** Loading the pipeline description *)

(** The values [json.load] returns.  Numbers are kept as integers: the
    driver looks at a number only for its truth value. *)
#[local] Unset Elimination Schemes.
Inductive json : Type :=
  | JNull
  | JBool (b : bool)
  | JNum (n : Z)
  | JStr (s : string)
  | JArr (items : list json)
  | JObj (fields : list (string * json)).
#[local] Set Elimination Schemes.

(** What [json.load(uploaded_file)] did: it raised, or returned a value. *)
Inductive load_result : Type :=
  | Raised (e : string)
  | Loaded (doc : json).

(** Python's truth value, used by [if not pipeline] *)
Definition truthy (j : json) : bool :=
  match j with
  | JNull => false
  | JBool b => b
  | JNum n => negb (n =? 0)%Z
  | JStr s => negb (String.eqb s "")
  | JArr items => match items with [] => false | _ => true end
  | JObj fields => match fields with [] => false | _ => true end
  end.

(** The built-in description *)
Definition default_pipeline : json :=
  JObj [
    ("nodes", JArr [
       JObj [("id", JStr "read"); ("type", JStr "source")];
       JObj [("id", JStr "map1"); ("type", JStr "transformation")];
       JObj [("id", JStr "filter1"); ("type", JStr "transformation")];
       JObj [("id", JStr "reduce1"); ("type", JStr "shuffle")];
       JObj [("id", JStr "output"); ("type", JStr "sink")]
     ]);
    ("edges", JArr [
       JArr [JStr "read"; JStr "map1"];
       JArr [JStr "map1"; JStr "filter1"];
       JArr [JStr "filter1"; JStr "reduce1"];
       JArr [JStr "reduce1"; JStr "output"]
     ])
  ].

(** The messages the driver shows while loading *)
Inductive notice : Type :=
  | Success (msg : string)
  | Error (msg : string).

(** [uploaded_file] is [None] when nothing was uploaded.  The result is the
    value of [pipeline] after the two [if] statements, with the notices. *)
Definition select_pipeline (uploaded_file : option load_result)
    : json * list notice :=
  let '(pipeline, shown) :=
    match uploaded_file with
    | None => (None, [])
    | Some (Loaded doc) => (Some doc, [Success "Custom DAG loaded!"])
    | Some (Raised e) => (None, [Error ("Invalid JSON file: " +:+ e)])
    end in
  match pipeline with
  | Some doc => if truthy doc then (doc, shown) else (default_pipeline, shown)
  | None => (default_pipeline, shown)
  end.

(** A description of the documented shape: objects with a string [id] and
    a string [type], and pairs of strings. *)
Record config : Type := Config {
  nodes : list (string * string);
  edges : list (string * string)
}.

(** [pipeline[key]] on an object *)
Definition field (key : string) (j : json) : option json :=
  match j with
  | JObj fields => PyDict.get key fields
  | _ => None
  end.

Definition read_node (j : json) : option (string * string) :=
  match field "id" j, field "type" j with
  | Some (JStr n), Some (JStr ty) => Some (n, ty)
  | _, _ => None
  end.

Definition read_edge (j : json) : option (string * string) :=
  match j with
  | JArr [JStr u; JStr v] => Some (u, v)
  | _ => None
  end.

Definition read_list {A} (f : json -> option A) (j : json) : option (list A) :=
  match j with
  | JArr items => mapM f items
  | _ => None
  end.

(** Reads a description of the documented shape; [None] for every other
    value, on which the graph-building loops are not modelled. *)
Definition read_config (pipeline : json) : option config :=
  ns ← field "nodes" pipeline ≫= read_list read_node;
  es ← field "edges" pipeline ≫= read_list read_edge;
  Some (Config ns es).

(** The two loops that fill the graph *)
Definition build_dag (c : config) : PipelineDAG.t :=
  let dag := foldl (fun d '(n, ty) => PipelineDAG.add_node n ty d)
                   PipelineDAG.__init__ (nodes c) in
  foldl (fun d '(u, v) => PipelineDAG.add_edge u v d) dag (edges c).

(** From the upload to the graph *)
Definition load_dag (uploaded_file : option load_result)
    : option PipelineDAG.t :=
  build_dag <$> read_config (select_pipeline uploaded_file).1.

(** ** The rest of the driver *)

(** [needle in hay] on strings *)
Fixpoint py_in (needle hay : string) : bool :=
  String.prefix needle hay ||
  match hay with
  | EmptyString => false
  | String _ hay' => py_in needle hay'
  end.

(** [l[i]]: a negative index counts from the end; [None] is [IndexError]. *)
Definition py_index {A} (l : list A) (i : Z) : option A :=
  if decide (0 ≤ i)%Z then l !! Z.to_nat i
  else if decide (- Z.of_nat (length l) ≤ i)%Z
       then l !! Z.to_nat (Z.of_nat (length l) + i)
       else None.

(** The identifiers of the nodes that stand for a transformation *)
Definition stage_nodes (c : config) : list string :=
  (base.filter (fun n : string * string =>
      py_in "map" n.1 || py_in "filter" n.1 || py_in "reduce" n.1)
    (nodes c)).*1.

(** [stage_nodes[sim.stage] if sim.stage < len(stage_nodes) else None];
    the outer [None] is the [IndexError] of the subscript. *)
Definition current_stage (c : config) (stage : Z) : option (option string) :=
  if decide (stage < Z.of_nat (length (stage_nodes c)))%Z
  then Some <$> py_index (stage_nodes c) stage
  else Some None.

(** [sep.join(l)] *)
Fixpoint py_join (sep : string) (l : list string) : string :=
  match l with
  | [] => ""
  | [s] => s
  | s :: l' => s +:+ sep +:+ py_join sep l'
  end.

(** The "Transformation Log" part of the page *)
Inductive panel : Type :=
  | Code (text : string)
  | Info (msg : string).

Definition log_panel (sim : SparkSim.t) : M panel :=
  let! lg := get_logs (SparkSim.logs sim) in
  match lg with
  | [] => ret (Info "No stages executed yet.")
  | _ => ret (Code (py_join PipelineDAG.newline lg))
  end.

(** One run of the script for a description of the documented shape:
    the graph is rebuilt and drawn with the node of the current stage. *)
Definition draw_page (c : config) (sim : SparkSim.t)
    : option PipelineDAG.drawing :=
  (fun hl => PipelineDAG.draw hl (build_dag c)) <$>
    current_stage c (SparkSim.stage sim).

(** ** The common shape of the transformations *)

Definition map_records (rs : list record) : list record :=
  (fun '(k, v) => (k, (v * 2)%Z)) <$> rs.

Definition filter_records (rs : list record) : list record :=
  base.filter (fun item : record => item.1 ≠ "banana") rs.

Definition reduce_records (rs : list record) : list record :=
  (fun '(k, vs) => (k, py_sum vs)) <$> SparkSim.group_records rs.

(** Append [line] to the log, replace the working list by [f] of its
    elements, count one stage. *)
Definition transform (line : string) (f : list record -> list record)
    (s : SparkSim.t) : M SparkSim.t :=
  do! logs_append (SparkSim.logs s) line in
  let! rs := get_records (SparkSim.data s) in
  let! d := new_obj (ORecords (f rs)) in
  ret (SparkSim.set_stage (SparkSim.stage s + 1) (SparkSim.set_data d s)).

(** ** The simulator seen from outside *)

(** What the page shows of the simulator: the stage counter, the elements
    of the working list and the lines of the log. *)
Record view : Type := View {
  v_stage : Z;
  v_data : list record;
  v_logs : list string
}.

(** The effect of a call on what is seen, for a seed list holding [orig] *)
Definition view_exec (orig : list record) (c : call) (v : view) : view :=
  let apply line f := View (v_stage v + 1) (f (v_data v)) (v_logs v ++ [line]) in
  match c with
  | Map => apply SparkSim.map_line map_records
  | Filter => apply SparkSim.filter_line filter_records
  | ReduceByKey => apply SparkSim.reduce_line reduce_records
  | Reset => View 0 orig []
  | NextStage =>
      if decide (v_stage v = 0%Z) then apply SparkSim.map_line map_records
      else if decide (v_stage v = 1%Z)
           then apply SparkSim.filter_line filter_records
      else if decide (v_stage v = 2%Z)
           then apply SparkSim.reduce_line reduce_records
      else v
  end.

Definition view_run (orig : list record) (cs : list call) (v : view) : view :=
  foldl (fun v c => view_exec orig c v) v cs.

(** The calls the page can issue: its two buttons *)
Definition is_button (c : call) : bool :=
  match c with
  | NextStage | Reset => true
  | _ => false
  end.

(** The values recorded under the key [k], in order *)
Definition values_of (k : string) (rs : list record) : list Z :=
  (base.filter (fun r : record => r.1 = k) rs).*2.

(** The distinct elements of [l], each at its first occurrence *)
Definition first_seen (l : list string) : list string :=
  reverse (remove_dups (reverse l)).

(** A small well-formed state: the default seed, untouched *)
Definition sample_heap : gmap positive obj :=
  {[ 1%positive := ORecords default_seed;
     2%positive := ORecords default_seed;
     3%positive := OLogs [] ]}.

Definition sample_sim : SparkSim.t := SparkSim.Build 1 2 0 3.

(** The computation [m] succeeds from [h] and leaves a simulator at stage
    [st] whose working list has the elements [rs] and whose log has the
    lines [lg]. *)
Definition yields (m : M SparkSim.t) (h : gmap positive obj)
    (st : Z) (rs : list record) (lg : list string) : Prop :=
  ∃ sim' h', m h = Some (sim', h') ∧
    SparkSim.stage sim' = st ∧
    h' !! SparkSim.data sim' = Some (ORecords rs) ∧
    h' !! SparkSim.logs sim' = Some (OLogs lg).

(** The elements of the working list once the first [st] transformations
    of the pipeline have been applied to [rs] *)
Definition staged (rs : list record) (st : Z) : list record :=
  if decide (st ≤ 0)%Z then rs
  else if decide (st = 1%Z) then map_records rs
  else if decide (st = 2%Z) then filter_records (map_records rs)
  else reduce_records (filter_records (map_records rs)).

(** The log of a complete run of the pipeline *)
Definition pipeline_log : list string :=
  [SparkSim.map_line; SparkSim.filter_line; SparkSim.reduce_line].

(** The successors of the node [a], in order *)
Definition succs (g : DiGraph.t) (a : string) : list string :=
  PyDict.keys (default [] (PyDict.get a (DiGraph.succ g))).

(** A graph is well formed when its two dictionaries list the same nodes,
    once each, no node lists a successor twice, and every successor is a
    node. *)
Record graph_ok (g : DiGraph.t) : Prop := GraphOk {
  ok_nodup : NoDup (PyDict.keys (DiGraph.node_attr g));
  ok_sync : PyDict.keys (DiGraph.succ g) = PyDict.keys (DiGraph.node_attr g);
  ok_succs : ∀ a, NoDup (succs g a);
  ok_closed : ∀ a b, b ∈ succs g a ->
                a ∈ DiGraph.nodes g ∧ b ∈ DiGraph.nodes g
}.

(** ** Invariants *)

(** [holds sim h orig cur lg]: in the heap [h] the three references of
    [sim] lead to lists with the elements [orig], [cur] and [lg], and the
    working list is not the seed list itself. *)
Record holds (sim : SparkSim.t) (h : gmap positive obj)
    (orig cur : list record) (lg : list string) : Prop := Holds {
  holds_original : h !! SparkSim.original sim = Some (ORecords orig);
  holds_data : h !! SparkSim.data sim = Some (ORecords cur);
  holds_logs : h !! SparkSim.logs sim = Some (OLogs lg);
  holds_apart : SparkSim.data sim ≠ SparkSim.original sim
}.

(** No identifier occurs twice among the nodes of the graph. *)
Definition unique_nodes (d : PipelineDAG.t) : Prop :=
  NoDup (DiGraph.nodes (PipelineDAG.graph d)).

(** * Properties *)

(** ** The heap operations *)

Lemma bind_Some {A B} (m : M A) (k : A -> M B) (h h' : gmap positive obj) a :
  m h = Some (a, h') -> bind m k h = k a h'.
Proof. intros Hm. unfold bind. by rewrite Hm. Qed.

Lemma fresh_unused (h : gmap positive obj) : h !! fresh (dom h) = None.
Proof. apply not_elem_of_dom, is_fresh. Qed.

Lemma used_not_fresh (h : gmap positive obj) (l : positive) (o : obj) :
  h !! l = Some o -> fresh (dom h) ≠ l.
Proof. intros Hl <-. by rewrite fresh_unused in Hl. Qed.

Lemma get_records_Some (h : gmap positive obj) l rs :
  h !! l = Some (ORecords rs) -> get_records l h = Some (rs, h).
Proof. intros Hl. unfold get_records. by rewrite Hl. Qed.

Lemma get_logs_Some (h : gmap positive obj) l ls :
  h !! l = Some (OLogs ls) -> get_logs l h = Some (ls, h).
Proof. intros Hl. unfold get_logs. by rewrite Hl. Qed.

Lemma list_copy_Some (h : gmap positive obj) l rs :
  h !! l = Some (ORecords rs) ->
  list_copy l h = Some (fresh (dom h), <[fresh (dom h) := ORecords rs]> h).
Proof.
  intros Hl. unfold list_copy.
  by rewrite (bind_Some _ _ _ _ _ (get_records_Some _ _ _ Hl)).
Qed.

Lemma logs_append_Some (h : gmap positive obj) l ls s :
  h !! l = Some (OLogs ls) ->
  logs_append l s h = Some (tt, <[l := OLogs (ls ++ [s])]> h).
Proof.
  intros Hl. unfold logs_append.
  by rewrite (bind_Some _ _ _ _ _ (get_logs_Some _ _ _ Hl)).
Qed.

Lemma logs_clear_Some (h : gmap positive obj) l ls :
  h !! l = Some (OLogs ls) ->
  logs_clear l h = Some (tt, <[l := OLogs []]> h).
Proof.
  intros Hl. unfold logs_clear.
  by rewrite (bind_Some _ _ _ _ _ (get_logs_Some _ _ _ Hl)).
Qed.

(** ** The simulator keeps its representation *)

Lemma init_holds (h : gmap positive obj) seed rs :
  h !! seed = Some (ORecords rs) ->
  ∃ sim h', SparkSim.__init__ seed h = Some (sim, h') ∧
    holds sim h' rs rs [] ∧
    SparkSim.original sim = seed ∧ SparkSim.stage sim = 0%Z.
Proof.
  intros Hseed. unfold SparkSim.__init__.
  rewrite (bind_Some _ _ _ _ _ (list_copy_Some _ _ _ Hseed)).
  set (d := fresh (dom h)). set (h1 := <[d := ORecords rs]> h).
  assert (Hd : d ≠ seed) by (by eapply used_not_fresh).
  assert (Hseed1 : h1 !! seed = Some (ORecords rs))
    by (subst h1; by rewrite lookup_insert_ne).
  assert (Hd1 : h1 !! d = Some (ORecords rs))
    by (subst h1; by rewrite lookup_insert_eq).
  unfold bind, new_obj, ret. do 2 eexists. split; [done|].
  split; [|done]. split; simpl.
  - rewrite lookup_insert_ne; [done|]. by eapply used_not_fresh.
  - rewrite lookup_insert_ne; [done|]. by eapply used_not_fresh.
  - by rewrite lookup_insert_eq.
  - done.
Qed.

Lemma transform_holds line f sim (h : gmap positive obj) orig cur lg :
  holds sim h orig cur lg ->
  ∃ sim' h', transform line f sim h = Some (sim', h') ∧
    holds sim' h' orig (f cur) (lg ++ [line]) ∧
    SparkSim.original sim' = SparkSim.original sim ∧
    SparkSim.logs sim' = SparkSim.logs sim ∧
    SparkSim.stage sim' = (SparkSim.stage sim + 1)%Z ∧
    h' !! SparkSim.data sim = Some (ORecords cur).
Proof.
  intros [Ho Hd Hl Hne]. unfold transform.
  rewrite (bind_Some _ _ _ _ _ (logs_append_Some _ _ _ line Hl)).
  set (h1 := <[SparkSim.logs sim := OLogs (lg ++ [line])]> h).
  assert (Hlo : SparkSim.logs sim ≠ SparkSim.original sim) by congruence.
  assert (Hld : SparkSim.logs sim ≠ SparkSim.data sim) by congruence.
  assert (Ho1 : h1 !! SparkSim.original sim = Some (ORecords orig))
    by (subst h1; by rewrite lookup_insert_ne).
  assert (Hd1 : h1 !! SparkSim.data sim = Some (ORecords cur))
    by (subst h1; by rewrite lookup_insert_ne).
  assert (Hl1 : h1 !! SparkSim.logs sim = Some (OLogs (lg ++ [line])))
    by (subst h1; by rewrite lookup_insert_eq).
  rewrite (bind_Some _ _ _ _ _ (get_records_Some _ _ _ Hd1)).
  unfold bind, new_obj, ret. do 2 eexists. split; [done|].
  pose proof (used_not_fresh _ _ _ Ho1) as Fo.
  pose proof (used_not_fresh _ _ _ Hd1) as Fd.
  pose proof (used_not_fresh _ _ _ Hl1) as Fl.
  split; [split; simpl|simpl].
  - by rewrite lookup_insert_ne.
  - by rewrite lookup_insert_eq.
  - by rewrite lookup_insert_ne.
  - done.
  - repeat split; try done. by rewrite lookup_insert_ne.
Qed.

Lemma map_transform sim :
  SparkSim.map sim = transform SparkSim.map_line map_records sim.
Proof. reflexivity. Qed.

Lemma filter_transform sim :
  SparkSim.filter sim = transform SparkSim.filter_line filter_records sim.
Proof. reflexivity. Qed.

Lemma reduceByKey_transform sim :
  SparkSim.reduceByKey sim
  = transform SparkSim.reduce_line reduce_records sim.
Proof. reflexivity. Qed.

Lemma reset_holds sim (h : gmap positive obj) orig cur lg :
  holds sim h orig cur lg ->
  ∃ sim' h', SparkSim.reset sim h = Some (sim', h') ∧
    holds sim' h' orig orig [] ∧
    SparkSim.original sim' = SparkSim.original sim ∧
    SparkSim.logs sim' = SparkSim.logs sim ∧
    SparkSim.stage sim' = 0%Z.
Proof.
  intros [Ho Hd Hl Hne]. unfold SparkSim.reset.
  rewrite (bind_Some _ _ _ _ _ (list_copy_Some _ _ _ Ho)).
  set (d := fresh (dom h)). set (h1 := <[d := ORecords orig]> h).
  pose proof (used_not_fresh _ _ _ Ho) as Fo.
  pose proof (used_not_fresh _ _ _ Hl) as Fl. fold d in Fo, Fl.
  assert (Hl1 : h1 !! SparkSim.logs sim = Some (OLogs lg))
    by (subst h1; by rewrite lookup_insert_ne).
  rewrite (bind_Some _ _ _ _ _ (logs_clear_Some _ _ _ Hl1)).
  assert (Hlo : SparkSim.logs sim ≠ SparkSim.original sim) by congruence.
  unfold ret. do 2 eexists. split; [done|].
  split; [split; simpl|done].
  - rewrite lookup_insert_ne; [|done]. subst h1. by rewrite lookup_insert_ne.
  - rewrite lookup_insert_ne; [|done]. subst h1. by rewrite lookup_insert_eq.
  - by rewrite lookup_insert_eq.
  - done.
Qed.

Lemma next_stage_0 sim :
  SparkSim.stage sim = 0%Z -> next_stage sim = SparkSim.map sim.
Proof. intros Hs. unfold next_stage. by rewrite Hs. Qed.

Lemma next_stage_1 sim :
  SparkSim.stage sim = 1%Z -> next_stage sim = SparkSim.filter sim.
Proof. intros Hs. unfold next_stage. by rewrite Hs. Qed.

Lemma next_stage_2 sim :
  SparkSim.stage sim = 2%Z -> next_stage sim = SparkSim.reduceByKey sim.
Proof. intros Hs. unfold next_stage. by rewrite Hs. Qed.

Lemma next_stage_done sim :
  SparkSim.stage sim ≠ 0%Z -> SparkSim.stage sim ≠ 1%Z ->
  SparkSim.stage sim ≠ 2%Z -> next_stage sim = ret sim.
Proof. intros H0 H1 H2. unfold next_stage. by repeat case_decide. Qed.

(** Every call succeeds on a well-formed simulator, keeps it well formed
    and leaves the seed list alone; every call but [reset] keeps or raises
    the stage counter. *)
Lemma exec_holds c sim (h : gmap positive obj) orig cur lg :
  holds sim h orig cur lg ->
  ∃ sim' h' cur' lg', exec c sim h = Some (sim', h') ∧
    holds sim' h' orig cur' lg' ∧
    SparkSim.original sim' = SparkSim.original sim ∧
    (c ≠ Reset -> (SparkSim.stage sim ≤ SparkSim.stage sim')%Z).
Proof.
  intros Hh.
  assert (Ht : ∀ line f,
    ∃ sim' h' cur' lg', transform line f sim h = Some (sim', h') ∧
      holds sim' h' orig cur' lg' ∧
      SparkSim.original sim' = SparkSim.original sim ∧
      (c ≠ Reset -> (SparkSim.stage sim ≤ SparkSim.stage sim')%Z)).
  { intros line f.
    destruct (transform_holds line f _ _ _ _ _ Hh)
      as (sim' & h' & Hrun & Hh' & Ho & _ & Hs & _).
    exists sim', h', (f cur), (lg ++ [line]).
    split; [done|]. split; [done|]. split; [done|]. rewrite Hs. lia. }
  destruct c; simpl;
    rewrite ?map_transform, ?filter_transform, ?reduceByKey_transform;
    try apply Ht.
  - destruct (reset_holds _ _ _ _ _ Hh) as (s & h' & ? & ? & ? & _).
    exists s, h', orig, []. by repeat (split; [done|]).
  - unfold next_stage. repeat case_decide;
      rewrite ?map_transform, ?filter_transform, ?reduceByKey_transform;
      try apply Ht.
    exists sim, h, cur, lg. repeat (split; [done|]). lia.
Qed.

Lemma exec_all_holds cs sim (h : gmap positive obj) orig cur lg :
  holds sim h orig cur lg ->
  ∃ sim' h' cur' lg', exec_all cs sim h = Some (sim', h') ∧
    holds sim' h' orig cur' lg' ∧
    SparkSim.original sim' = SparkSim.original sim.
Proof.
  revert sim h cur lg. induction cs as [|c cs IH]; intros sim h cur lg Hh.
  - exists sim, h, cur, lg. by repeat (split; [done|]).
  - destruct (exec_holds c _ _ _ _ _ Hh)
      as (s1 & h1 & c1 & l1 & Hrun & Hh1 & Ho1 & _).
    destruct (IH _ _ _ _ Hh1) as (s2 & h2 & c2 & l2 & Hrun2 & Hh2 & Ho2).
    exists s2, h2, c2, l2. simpl. rewrite (bind_Some _ _ _ _ _ Hrun).
    repeat (split; [done|]). congruence.
Qed.

(** The same for a session in which the caller also changes the seed list:
    the simulator then sees the new elements through [original]. *)
Lemma step_holds ev sim (h : gmap positive obj) orig cur lg :
  holds sim h orig cur lg ->
  ∃ sim' h' cur' lg', step ev sim h = Some (sim', h') ∧
    holds sim' h' (seed_after orig [ev]) cur' lg' ∧
    SparkSim.original sim' = SparkSim.original sim.
Proof.
  intros Hh. destruct ev as [c|rs]; simpl.
  - destruct (exec_holds c _ _ _ _ _ Hh)
      as (s1 & h1 & c1 & l1 & Hrun & Hh1 & Ho1 & _).
    by exists s1, h1, c1, l1.
  - destruct Hh as [Ho Hd Hl Hne].
    rewrite (bind_Some _ _ _ _ _ (get_records_Some _ _ _ Ho)).
    unfold bind, store, ret.
    exists sim, (<[SparkSim.original sim := ORecords rs]> h), cur, lg.
    split; [done|]. split; [split|done].
    + by rewrite lookup_insert_eq.
    + by rewrite lookup_insert_ne.
    + rewrite lookup_insert_ne; [done|congruence].
    + done.
Qed.

Lemma steps_holds evs sim (h : gmap positive obj) orig cur lg :
  holds sim h orig cur lg ->
  ∃ sim' h' cur' lg', steps evs sim h = Some (sim', h') ∧
    holds sim' h' (seed_after orig evs) cur' lg' ∧
    SparkSim.original sim' = SparkSim.original sim.
Proof.
  revert sim h orig cur lg.
  induction evs as [|ev evs IH]; intros sim h orig cur lg Hh.
  - exists sim, h, cur, lg. by repeat (split; [done|]).
  - destruct (step_holds ev _ _ _ _ _ Hh)
      as (s1 & h1 & c1 & l1 & Hrun & Hh1 & Ho1).
    destruct (IH _ _ _ _ _ Hh1) as (s2 & h2 & c2 & l2 & Hrun2 & Hh2 & Ho2).
    exists s2, h2, c2, l2. simpl steps. rewrite (bind_Some _ _ _ _ _ Hrun).
    repeat (split; [done|]). congruence.
Qed.

Lemma seed_after_calls rs evs :
  forallb is_call evs = true -> seed_after rs evs = rs.
Proof.
  unfold seed_after. revert rs.
  induction evs as [|[c|rs'] evs IH]; intros rs Hc; simpl in *;
    [done|by apply IH|done].
Qed.

(** ** The simulator *)

(** C1, as amended.  The "Next Stage" dispatch is gated on the stage
    counter: when the counter is none of 0, 1, 2 (in particular at 3) the
    action changes nothing, neither the simulator's attributes nor any list
    in the heap, however often it is repeated; and a transformation is
    issued by the dispatch only at its own stage (0 for map, 1 for filter,
    2 for reduceByKey). *)
Theorem next_stage_gated sim (h : gmap positive obj) :
  (SparkSim.stage sim ≠ 0%Z -> SparkSim.stage sim ≠ 1%Z ->
   SparkSim.stage sim ≠ 2%Z ->
   next_stage sim h = Some (sim, h) ∧
   ∀ n, exec_all (replicate n NextStage) sim h = Some (sim, h)) ∧
  (∀ c n, dispatch_stage c = Some n -> SparkSim.stage sim = n ->
          next_stage sim h = exec c sim h).
Proof.
  split.
  - intros H0 H1 H2.
    assert (Hidle : next_stage sim h = Some (sim, h))
      by by rewrite next_stage_done.
    split; [done|]. induction n as [|n IH]; [done|].
    simpl. by rewrite (bind_Some _ _ _ _ _ Hidle).
  - intros [] n [= <-] Hs; simpl.
    + by rewrite next_stage_0.
    + by rewrite next_stage_1.
    + by rewrite next_stage_2.
Qed.

Lemma next_stage_gated_witness :
  let sim := SparkSim.Build 1 2 3 3 in
  let h : gmap positive obj :=
    {[ 1%positive := ORecords []; 2%positive := ORecords [];
       3%positive := OLogs [] ]} in
  (next_stage sim h = Some (sim, h) ∧
   ∀ n, exec_all (replicate n NextStage) sim h = Some (sim, h)) ∧
  next_stage (SparkSim.Build 1 2 1 3) h
    = exec Filter (SparkSim.Build 1 2 1 3) h.
Proof.
  intros sim h. split.
  - apply (proj1 (next_stage_gated sim h)); simpl; lia.
  - apply (proj2 (next_stage_gated (SparkSim.Build 1 2 1 3) h) Filter 1%Z);
      reflexivity.
Defined.

(** C1 fails for direct calls.  The transformation methods themselves carry
    no guard: [filter()] called at stage 0 on the default seed filters,
    logs and counts. *)
Lemma direct_filter_at_stage_0 :
  let h : gmap positive obj := {[ 1%positive := ORecords default_seed ]} in
  ∃ sim0 h0 sim1 h1,
    SparkSim.__init__ 1%positive h = Some (sim0, h0) ∧
    SparkSim.stage sim0 = 0%Z ∧
    dispatch_stage Filter ≠ Some (SparkSim.stage sim0) ∧
    h0 !! SparkSim.data sim0 = Some (ORecords default_seed) ∧
    h0 !! SparkSim.logs sim0 = Some (OLogs []) ∧
    exec Filter sim0 h0 = Some (sim1, h1) ∧
    SparkSim.stage sim1 = 1%Z ∧
    h1 !! SparkSim.data sim1
      = Some (ORecords [("apple", 1%Z); ("apple", 1%Z); ("carrot", 1%Z)]) ∧
    h1 !! SparkSim.logs sim1 = Some (OLogs [SparkSim.filter_line]) ∧
    (sim1, h1) ≠ (sim0, h0).
Proof.
  intros h. do 4 eexists.
  split; [vm_compute; reflexivity|].
  split; [reflexivity|].
  split; [discriminate|].
  split; [vm_compute; reflexivity|].
  split; [vm_compute; reflexivity|].
  split; [vm_compute; reflexivity|].
  split; [reflexivity|].
  split; [vm_compute; reflexivity|].
  split; [vm_compute; reflexivity|].
  intros [=].
Qed.

(** C2.  On the default seed, constructing the simulator and calling map,
    filter and reduceByKey in turn gives the working list the elements
    [apple 2, banana 2, apple 2, carrot 2], then [apple 2, apple 2,
    carrot 2], then [apple 4, carrot 2], keys in first-seen order. *)
Theorem default_seed_run (h : gmap positive obj) (seed : positive) :
  h !! seed = Some (ORecords default_seed) ->
  ∃ s0 h0 s1 h1 s2 h2 s3 h3,
    SparkSim.__init__ seed h = Some (s0, h0) ∧
    SparkSim.stage s0 = 0%Z ∧
    h0 !! SparkSim.data s0 = Some (ORecords default_seed) ∧
    SparkSim.map s0 h0 = Some (s1, h1) ∧
    h1 !! SparkSim.data s1
      = Some (ORecords [("apple", 2%Z); ("banana", 2%Z);
                        ("apple", 2%Z); ("carrot", 2%Z)]) ∧
    SparkSim.filter s1 h1 = Some (s2, h2) ∧
    h2 !! SparkSim.data s2
      = Some (ORecords [("apple", 2%Z); ("apple", 2%Z); ("carrot", 2%Z)]) ∧
    SparkSim.reduceByKey s2 h2 = Some (s3, h3) ∧
    h3 !! SparkSim.data s3
      = Some (ORecords [("apple", 4%Z); ("carrot", 2%Z)]).
Proof.
  intros Hseed.
  destruct (init_holds _ _ _ Hseed) as (s0 & h0 & R0 & I0 & _ & St0).
  destruct (transform_holds SparkSim.map_line map_records
              _ _ _ _ _ I0) as (s1 & h1 & R1 & I1 & _).
  destruct (transform_holds SparkSim.filter_line filter_records
              _ _ _ _ _ I1) as (s2 & h2 & R2 & I2 & _).
  destruct (transform_holds SparkSim.reduce_line reduce_records
              _ _ _ _ _ I2) as (s3 & h3 & R3 & I3 & _).
  exists s0, h0, s1, h1, s2, h2, s3, h3.
  repeat (split; [done|]).
  split; [exact (holds_data _ _ _ _ _ I0)|].
  split; [exact R1|].
  split; [exact (holds_data _ _ _ _ _ I1)|].
  split; [exact R2|].
  split; [exact (holds_data _ _ _ _ _ I2)|].
  split; [exact R3|].
  exact (holds_data _ _ _ _ _ I3).
Qed.

Lemma default_seed_run_witness :
  ∃ s0 h0 s1 h1 s2 h2 s3 h3,
    SparkSim.__init__ 1%positive {[ 1%positive := ORecords default_seed ]}
      = Some (s0, h0) ∧
    SparkSim.stage s0 = 0%Z ∧
    h0 !! SparkSim.data s0 = Some (ORecords default_seed) ∧
    SparkSim.map s0 h0 = Some (s1, h1) ∧
    h1 !! SparkSim.data s1
      = Some (ORecords [("apple", 2%Z); ("banana", 2%Z);
                        ("apple", 2%Z); ("carrot", 2%Z)]) ∧
    SparkSim.filter s1 h1 = Some (s2, h2) ∧
    h2 !! SparkSim.data s2
      = Some (ORecords [("apple", 2%Z); ("apple", 2%Z); ("carrot", 2%Z)]) ∧
    SparkSim.reduceByKey s2 h2 = Some (s3, h3) ∧
    h3 !! SparkSim.data s3
      = Some (ORecords [("apple", 4%Z); ("carrot", 2%Z)]).
Proof.
  apply (default_seed_run {[ 1%positive := ORecords default_seed ]} 1).
  vm_compute. reflexivity.
Defined.

(** C5.  On the default seed, the fourth "Next Stage" finds the simulator
    at stage 3 and returns it as it is: the working list has the same
    elements after four actions as after three. *)
Theorem fourth_next_stage_idle (h : gmap positive obj) (seed : positive) :
  h !! seed = Some (ORecords default_seed) ->
  ∃ s3 h3 s4 h4 rs,
    session seed [NextStage; NextStage; NextStage] h = Some (s3, h3) ∧
    session seed [NextStage; NextStage; NextStage; NextStage] h
      = Some (s4, h4) ∧
    h3 !! SparkSim.data s3 = Some (ORecords rs) ∧
    h4 !! SparkSim.data s4 = Some (ORecords rs) ∧
    rs = [("apple", 4%Z); ("carrot", 2%Z)] ∧
    SparkSim.stage s3 = 3%Z ∧ SparkSim.stage s4 = 3%Z.
Proof.
  intros Hseed.
  destruct (init_holds _ _ _ Hseed) as (s0 & h0 & R0 & I0 & _ & St0).
  destruct (transform_holds SparkSim.map_line map_records
              _ _ _ _ _ I0) as (s1 & h1 & R1 & I1 & _ & _ & St1 & _).
  destruct (transform_holds SparkSim.filter_line filter_records
              _ _ _ _ _ I1) as (s2 & h2 & R2 & I2 & _ & _ & St2 & _).
  destruct (transform_holds SparkSim.reduce_line reduce_records
              _ _ _ _ _ I2) as (s3 & h3 & R3 & I3 & _ & _ & St3 & _).
  rewrite St0 in St1. rewrite St1 in St2. rewrite St2 in St3.
  simpl in St1, St2, St3.
  assert (N1 : next_stage s0 h0 = Some (s1, h1)) by by rewrite next_stage_0.
  assert (N2 : next_stage s1 h1 = Some (s2, h2)) by by rewrite next_stage_1.
  assert (N3 : next_stage s2 h2 = Some (s3, h3)) by by rewrite next_stage_2.
  assert (N4 : next_stage s3 h3 = Some (s3, h3)).
  { rewrite next_stage_done; [done|rewrite St3; lia..]. }
  exists s3, h3, s3, h3, [("apple", 4%Z); ("carrot", 2%Z)].
  unfold session. rewrite !(bind_Some _ _ _ _ _ R0). simpl exec_all.
  rewrite !(bind_Some _ _ _ _ _ N1), !(bind_Some _ _ _ _ _ N2),
    !(bind_Some _ _ _ _ _ N3), (bind_Some _ _ _ _ _ N4).
  repeat (split; [done|]).
  split; [exact (holds_data _ _ _ _ _ I3)|].
  split; [exact (holds_data _ _ _ _ _ I3)|]. done.
Qed.

Lemma fourth_next_stage_idle_witness :
  ∃ s3 h3 s4 h4 rs,
    session 1 [NextStage; NextStage; NextStage]
      {[ 1%positive := ORecords default_seed ]} = Some (s3, h3) ∧
    session 1 [NextStage; NextStage; NextStage; NextStage]
      {[ 1%positive := ORecords default_seed ]} = Some (s4, h4) ∧
    h3 !! SparkSim.data s3 = Some (ORecords rs) ∧
    h4 !! SparkSim.data s4 = Some (ORecords rs) ∧
    rs = [("apple", 4%Z); ("carrot", 2%Z)] ∧
    SparkSim.stage s3 = 3%Z ∧ SparkSim.stage s4 = 3%Z.
Proof.
  apply (fourth_next_stage_idle {[ 1%positive := ORecords default_seed ]} 1).
  vm_compute. reflexivity.
Defined.

(** C7.  A new simulator is at stage 0 with an empty log.  After any
    earlier calls, a call of map, filter or reduceByKey succeeds, raises the
    stage counter by exactly one and appends exactly one line, its own, to
    the log; and any call other than reset (the "Next Stage" action
    included) leaves the counter where it was or higher. *)
Theorem stage_counter_discipline (h : gmap positive obj) (seed : positive)
    (rs : list record) (cs : list call) (c : call) :
  h !! seed = Some (ORecords rs) ->
  ∃ s0 h0 s1 h1 lg s2 h2,
    SparkSim.__init__ seed h = Some (s0, h0) ∧
    SparkSim.stage s0 = 0%Z ∧
    h0 !! SparkSim.logs s0 = Some (OLogs []) ∧
    exec_all cs s0 h0 = Some (s1, h1) ∧
    h1 !! SparkSim.logs s1 = Some (OLogs lg) ∧
    exec c s1 h1 = Some (s2, h2) ∧
    (∀ line, log_line c = Some line ->
       SparkSim.stage s2 = (SparkSim.stage s1 + 1)%Z ∧
       SparkSim.logs s2 = SparkSim.logs s1 ∧
       h2 !! SparkSim.logs s2 = Some (OLogs (lg ++ [line]))) ∧
    (c ≠ Reset -> (SparkSim.stage s1 ≤ SparkSim.stage s2)%Z).
Proof.
  intros Hseed.
  destruct (init_holds _ _ _ Hseed) as (s0 & h0 & R0 & I0 & _ & St0).
  destruct (exec_all_holds cs _ _ _ _ _ I0)
    as (s1 & h1 & cur & lg & R1 & I1 & _).
  destruct (exec_holds c _ _ _ _ _ I1)
    as (s2 & h2 & cur' & lg' & R2 & I2 & _ & Hmono).
  exists s0, h0, s1, h1, lg, s2, h2.
  split; [done|]. split; [done|].
  split; [exact (holds_logs _ _ _ _ _ I0)|].
  split; [done|].
  split; [exact (holds_logs _ _ _ _ _ I1)|].
  split; [done|]. split; [|done].
  intros line Hline.
  assert (Ht : ∃ f, exec c s1 h1 = transform line f s1 h1).
  { destruct c; simplify_eq/=;
      [by exists map_records|by exists filter_records
      |by exists reduce_records]. }
  destruct Ht as [f Hf]. rewrite Hf in R2.
  destruct (transform_holds line f _ _ _ _ _ I1)
    as (s2' & h2' & R2' & I2' & _ & Hl & Hs & _).
  rewrite R2 in R2'. simplify_eq.
  split; [done|]. split; [done|]. exact (holds_logs _ _ _ _ _ I2').
Qed.

Lemma stage_counter_discipline_witness :
  ∃ s0 h0 s1 h1 lg s2 h2,
    SparkSim.__init__ 1 {[ 1%positive := ORecords default_seed ]}
      = Some (s0, h0) ∧
    SparkSim.stage s0 = 0%Z ∧
    h0 !! SparkSim.logs s0 = Some (OLogs []) ∧
    exec_all [Map] s0 h0 = Some (s1, h1) ∧
    h1 !! SparkSim.logs s1 = Some (OLogs lg) ∧
    exec Filter s1 h1 = Some (s2, h2) ∧
    (∀ line, log_line Filter = Some line ->
       SparkSim.stage s2 = (SparkSim.stage s1 + 1)%Z ∧
       SparkSim.logs s2 = SparkSim.logs s1 ∧
       h2 !! SparkSim.logs s2 = Some (OLogs (lg ++ [line]))) ∧
    (Filter ≠ Reset -> (SparkSim.stage s1 ≤ SparkSim.stage s2)%Z).
Proof.
  apply (stage_counter_discipline
           {[ 1%positive := ORecords default_seed ]} 1 default_seed
           [Map] Filter).
  vm_compute. reflexivity.
Defined.

(** C3 fails when the seed list changes after construction.  The caller's
    list and the simulator's [original] are one object: what the caller
    appends after construction comes back at the next reset. *)
Lemma reset_sees_later_append :
  let h : gmap positive obj := {[ 1%positive := ORecords [("apple", 1%Z)] ]} in
  ∃ sim h',
    shared_session 1
      [SeedMutated [("apple", 1%Z); ("kiwi", 5%Z)]; Call Reset] h
      = Some (sim, h') ∧
    h' !! SparkSim.data sim
      = Some (ORecords [("apple", 1%Z); ("kiwi", 5%Z)]) ∧
    h' !! SparkSim.data sim ≠ Some (ORecords [("apple", 1%Z)]).
Proof.
  intros h. do 2 eexists.
  split; [vm_compute; reflexivity|].
  split; [vm_compute; reflexivity|].
  vm_compute. intros [=].
Qed.

(** C3, as amended.  After any calls on the simulator, interleaved with any
    changes the caller makes to the list it supplied, [reset] succeeds,
    gives the working list (a new list, not the seed list) the elements the
    seed list has at that moment, sets the stage counter to 0 and empties
    the log.  When the caller has made no change, those elements are the
    ones supplied at construction. *)
Theorem reset_restores_seed_list (h : gmap positive obj) (seed : positive)
    (rs : list record) (evs : list event) :
  h !! seed = Some (ORecords rs) ->
  ∃ s1 h1 s2 h2,
    shared_session seed evs h = Some (s1, h1) ∧
    SparkSim.reset s1 h1 = Some (s2, h2) ∧
    h2 !! SparkSim.data s2 = Some (ORecords (seed_after rs evs)) ∧
    SparkSim.data s2 ≠ seed ∧
    h2 !! seed = Some (ORecords (seed_after rs evs)) ∧
    SparkSim.stage s2 = 0%Z ∧
    h2 !! SparkSim.logs s2 = Some (OLogs []) ∧
    (forallb is_call evs = true -> seed_after rs evs = rs).
Proof.
  intros Hseed.
  destruct (init_holds _ _ _ Hseed) as (s0 & h0 & R0 & I0 & O0 & _).
  destruct (steps_holds evs _ _ _ _ _ I0)
    as (s1 & h1 & cur & lg & R1 & I1 & O1).
  destruct (reset_holds _ _ _ _ _ I1) as (s2 & h2 & R2 & I2 & O2 & _ & St2).
  assert (Hs2 : SparkSim.original s2 = seed) by congruence.
  exists s1, h1, s2, h2. unfold shared_session.
  rewrite (bind_Some _ _ _ _ _ R0).
  split; [done|]. split; [done|].
  split; [exact (holds_data _ _ _ _ _ I2)|].
  split; [rewrite <- Hs2; exact (holds_apart _ _ _ _ _ I2)|].
  split; [rewrite <- Hs2; exact (holds_original _ _ _ _ _ I2)|].
  split; [done|].
  split; [exact (holds_logs _ _ _ _ _ I2)|].
  apply seed_after_calls.
Qed.

Lemma reset_restores_seed_list_witness :
  ∃ s1 h1 s2 h2,
    shared_session 1 [Call Map; Call Filter]
      {[ 1%positive := ORecords default_seed ]} = Some (s1, h1) ∧
    SparkSim.reset s1 h1 = Some (s2, h2) ∧
    h2 !! SparkSim.data s2
      = Some (ORecords (seed_after default_seed [Call Map; Call Filter])) ∧
    SparkSim.data s2 ≠ 1%positive ∧
    h2 !! 1%positive
      = Some (ORecords (seed_after default_seed [Call Map; Call Filter])) ∧
    SparkSim.stage s2 = 0%Z ∧
    h2 !! SparkSim.logs s2 = Some (OLogs []) ∧
    (forallb is_call [Call Map; Call Filter] = true ->
     seed_after default_seed [Call Map; Call Filter] = default_seed).
Proof.
  apply (reset_restores_seed_list
           {[ 1%positive := ORecords default_seed ]} 1 default_seed
           [Call Map; Call Filter]).
  vm_compute. reflexivity.
Defined.

(** C10.  No call on the simulator touches the seed list: after any
    sequence of calls, [original] is still the reference given at
    construction and the list behind it has the elements it was given
    with, so that is what a reset copies. *)
Theorem calls_preserve_original (h : gmap positive obj) (seed : positive)
    (rs : list record) (cs : list call) :
  h !! seed = Some (ORecords rs) ->
  ∃ s1 h1 s2 h2,
    session seed cs h = Some (s1, h1) ∧
    SparkSim.original s1 = seed ∧
    h1 !! SparkSim.original s1 = Some (ORecords rs) ∧
    SparkSim.reset s1 h1 = Some (s2, h2) ∧
    h2 !! SparkSim.data s2 = Some (ORecords rs).
Proof.
  intros Hseed.
  destruct (init_holds _ _ _ Hseed) as (s0 & h0 & R0 & I0 & O0 & _).
  destruct (exec_all_holds cs _ _ _ _ _ I0)
    as (s1 & h1 & cur & lg & R1 & I1 & O1).
  destruct (reset_holds _ _ _ _ _ I1) as (s2 & h2 & R2 & I2 & _).
  exists s1, h1, s2, h2. unfold session. rewrite (bind_Some _ _ _ _ _ R0).
  split; [done|]. split; [congruence|].
  split; [exact (holds_original _ _ _ _ _ I1)|].
  split; [done|]. exact (holds_data _ _ _ _ _ I2).
Qed.

Lemma calls_preserve_original_witness :
  ∃ s1 h1 s2 h2,
    session 1 [Map; Filter; ReduceByKey; NextStage]
      {[ 1%positive := ORecords default_seed ]} = Some (s1, h1) ∧
    SparkSim.original s1 = 1%positive ∧
    h1 !! SparkSim.original s1 = Some (ORecords default_seed) ∧
    SparkSim.reset s1 h1 = Some (s2, h2) ∧
    h2 !! SparkSim.data s2 = Some (ORecords default_seed).
Proof.
  apply (calls_preserve_original
           {[ 1%positive := ORecords default_seed ]} 1 default_seed
           [Map; Filter; ReduceByKey; NextStage]).
  vm_compute. reflexivity.
Defined.

(** ** The metrics *)

Lemma foldl_max_spec (vs : list Z) (m : Z) :
  let r := foldl (fun m x => if (m <? x)%Z then x else m) m vs in
  (r = m ∨ r ∈ vs) ∧ (m ≤ r)%Z ∧ ∀ v, v ∈ vs -> (v ≤ r)%Z.
Proof.
  revert m. induction vs as [|x vs IH]; intros m; simpl.
  - split; [by left|]. split; [lia|]. intros v Hv. by apply elem_of_nil in Hv.
  - destruct (IH (if (m <? x)%Z then x else m)) as (Hin & Hle & Hub).
    destruct (Z.ltb_spec m x) as [Hlt|Hge].
    + split; [right; destruct Hin as [->|Hin]; [left|by right]|].
      split; [lia|]. intros v [->|Hv]%elem_of_cons; [done|by apply Hub].
    + split; [destruct Hin as [->|Hin]; [by left|by right; right]|].
      split; [done|]. intros v [->|Hv]%elem_of_cons; [lia|by apply Hub].
Qed.

Lemma py_max_nonempty (vs : list Z) (d : Z) :
  vs ≠ [] -> py_max vs d ∈ vs ∧ ∀ v, v ∈ vs -> (v ≤ py_max vs d)%Z.
Proof.
  destruct vs as [|x vs]; [done|]. intros _. simpl.
  destruct (foldl_max_spec vs x) as (Hin & Hle & Hub). split.
  - destruct Hin as [->|Hin]; [left|by right].
  - intros v [->|Hv]%elem_of_cons; [done|by apply Hub].
Qed.

(** C9.  From stage 3 on, the "Max Value" metric is computed without
    failure and without changing anything: it is 0 when the working list
    is empty, and otherwise the value of one of the records, which no
    record's value exceeds. *)
Theorem max_value_metric sim (h : gmap positive obj) (rs : list record) :
  (3 ≤ SparkSim.stage sim)%Z ->
  h !! SparkSim.data sim = Some (ORecords rs) ->
  ∃ m, show_metric MaxValue sim h = Some (Some m, h) ∧
       (rs = [] -> m = 0%Z) ∧
       (rs ≠ [] -> m ∈ rs.*2 ∧ ∀ v, v ∈ rs.*2 -> (v ≤ m)%Z).
Proof.
  intros Hst Hd. exists (py_max rs.*2 0). split.
  - unfold show_metric. rewrite decide_True by done.
    by rewrite (bind_Some _ _ _ _ _ (get_records_Some _ _ _ Hd)).
  - split.
    + by intros ->.
    + intros Hne. apply py_max_nonempty. by destruct rs.
Qed.

Lemma max_value_metric_witness :
  let sim := SparkSim.Build 1 2 3 3 in
  let h : gmap positive obj :=
    {[ 1%positive := ORecords [("banana", 1%Z)]; 2%positive := ORecords [];
       3%positive := OLogs [] ]} in
  ∃ m, show_metric MaxValue sim h = Some (Some m, h) ∧
       (@nil record = [] -> m = 0%Z) ∧
       (@nil record ≠ [] ->
        m ∈ (@nil record).*2 ∧ ∀ v, v ∈ (@nil record).*2 -> (v ≤ m)%Z).
Proof.
  intros sim h. apply (max_value_metric sim h []).
  - simpl. lia.
  - vm_compute. reflexivity.
Defined.

(** A session that ends at stage 3 with an empty working list: a seed of
    bananas only.  The panel then shows 0. *)
Example max_value_after_bananas :
  let h : gmap positive obj := {[ 1%positive := ORecords [("banana", 7%Z)] ]} in
  ∃ sim h',
    session 1 [NextStage; NextStage; NextStage] h = Some (sim, h') ∧
    SparkSim.stage sim = 3%Z ∧
    h' !! SparkSim.data sim = Some (ORecords []) ∧
    show_metric MaxValue sim h' = Some (Some 0%Z, h').
Proof.
  intros h. do 2 eexists.
  split; [vm_compute; reflexivity|].
  split; [reflexivity|].
  split; vm_compute; reflexivity.
Qed.

(** ** Ordered dictionaries *)

Section PyDict_facts.
Context {V : Type}.
Implicit Types (d : list (string * V)) (k : string) (v : V).

Lemma keys_set k v d :
  PyDict.keys (PyDict.set k v d)
  = if bool_decide (k ∈ PyDict.keys d) then PyDict.keys d
    else PyDict.keys d ++ [k].
Proof.
  unfold PyDict.keys. induction d as [|[k' v'] d IH]; [done|].
  cbn [PyDict.set].
  destruct (decide (k = k')) as [->|Hne]; rewrite !fmap_cons; cbn [fst].
  - rewrite bool_decide_eq_true_2; [done|]. by left.
  - rewrite IH. destruct (decide (k ∈ d.*1)) as [Hin|Hout].
    + rewrite !bool_decide_eq_true_2; [done|by right|done].
    + rewrite !bool_decide_eq_false_2; [done| |done].
      intros [?|?]%elem_of_cons; done.
Qed.

Lemma NoDup_keys_set k v d :
  NoDup (PyDict.keys d) -> NoDup (PyDict.keys (PyDict.set k v d)).
Proof.
  intros Hnd. rewrite keys_set. case_bool_decide as Hin; [done|].
  apply NoDup_app. split; [done|]. split; [|apply NoDup_singleton].
  intros x Hx ->%list_elem_of_singleton. done.
Qed.

Lemma elem_of_keys_set k k' v d :
  k' ∈ PyDict.keys (PyDict.set k v d) ↔ k' = k ∨ k' ∈ PyDict.keys d.
Proof.
  rewrite keys_set. case_bool_decide as Hin.
  - split; [by right|]. by intros [->|?].
  - rewrite elem_of_app, list_elem_of_singleton. tauto.
Qed.

Lemma get_set_eq k v d : PyDict.get k (PyDict.set k v d) = Some v.
Proof.
  induction d as [|[k' v'] d IH]; simpl.
  - by rewrite decide_True.
  - destruct (decide (k = k')) as [->|Hne]; simpl.
    + by rewrite decide_True.
    + by rewrite decide_False.
Qed.

Lemma get_set_ne k k' v d :
  k ≠ k' -> PyDict.get k' (PyDict.set k v d) = PyDict.get k' d.
Proof.
  intros Hne. induction d as [|[k0 v0] d IH]; simpl.
  - by rewrite decide_False.
  - destruct (decide (k = k0)) as [->|Hne0]; simpl.
    + by rewrite !decide_False.
    + by rewrite IH.
Qed.
End PyDict_facts.

(** In a list without repetition an element occurs once or not at all. *)
Lemma count_NoDup (l : list string) (a : string) :
  NoDup l ->
  length (base.filter (fun x => x = a) l) = if bool_decide (a ∈ l) then 1 else 0.
Proof.
  induction 1 as [|x l Hx Hnd IH]; [done|].
  rewrite filter_cons. destruct (decide (x = a)) as [->|Hne]; simpl.
  - rewrite IH, bool_decide_eq_false_2 by done.
    rewrite bool_decide_eq_true_2; [done|]. by left.
  - rewrite IH. destruct (decide (a ∈ l)) as [Hin|Hout].
    + rewrite !bool_decide_eq_true_2; [done|by right|done].
    + rewrite !bool_decide_eq_false_2; [done| |done].
      intros [?|?]%elem_of_cons; done.
Qed.

(** ** The graph *)

Lemma get_unique {V} (d : list (string * V)) k v :
  NoDup (PyDict.keys d) -> (k, v) ∈ d -> PyDict.get k d = Some v.
Proof.
  unfold PyDict.keys. induction d as [|[k' v'] d IH]; intros Hnd Hin.
  - by apply elem_of_nil in Hin.
  - rewrite fmap_cons in Hnd. apply NoDup_cons in Hnd as [Hk' Hnd]. simpl.
    apply elem_of_cons in Hin as [[= -> ->]|Hin].
    + by rewrite decide_True.
    + rewrite decide_False; [by apply IH|].
      intros ->. apply Hk'. apply list_elem_of_fmap. by exists (k', v).
Qed.

(** ** The graph *)

Lemma add_node_unique n ty d :
  unique_nodes d -> unique_nodes (PipelineDAG.add_node n ty d).
Proof. apply NoDup_keys_set. Qed.

Lemma ensure_node_unique n g :
  NoDup (DiGraph.nodes g) -> NoDup (DiGraph.nodes (DiGraph.ensure_node n g)).
Proof.
  intros Hnd. unfold DiGraph.ensure_node.
  destruct (PyDict.contains n (DiGraph.succ g)); [done|].
  by apply NoDup_keys_set.
Qed.

Lemma add_edge_unique u v d :
  unique_nodes d -> unique_nodes (PipelineDAG.add_edge u v d).
Proof.
  intros Hnd. unfold unique_nodes, PipelineDAG.add_edge, DiGraph.add_edge.
  simpl. by do 2 apply ensure_node_unique.
Qed.

Lemma apply_op_unique d op : unique_nodes d -> unique_nodes (apply_op d op).
Proof.
  destruct op; simpl; [apply add_node_unique|apply add_edge_unique].
Qed.

Lemma foldl_apply_op_unique ops d :
  unique_nodes d -> unique_nodes (foldl apply_op d ops).
Proof.
  revert d. induction ops as [|op ops IH]; intros d Hd; simpl; [done|].
  by apply IH, apply_op_unique.
Qed.

Lemma apply_ops_unique ops : unique_nodes (apply_ops ops).
Proof. apply foldl_apply_op_unique. constructor. Qed.

(** The two loops of the driver are such a sequence: the nodes, then the
    edges. *)
Lemma build_dag_ops (c : config) :
  build_dag c
  = apply_ops (((fun '(n, ty) => AddNode n ty) <$> nodes c)
               ++ ((fun '(u, v) => AddEdge u v) <$> edges c)).
Proof.
  unfold build_dag, apply_ops. rewrite foldl_app.
  generalize PipelineDAG.__init__ as d. generalize (nodes c) as ns.
  induction ns as [|[n ty] ns IH]; intros d; simpl.
  - generalize (edges c) as es. revert d.
    intros d es. revert d. induction es as [|[u v] es IHe]; intros d; simpl;
      [done|apply IHe].
  - apply IH.
Qed.

(** The accent colour marks exactly the nodes equal to the highlight. *)
Lemma orange_count (hl : option string) (l : list string) :
  length (base.filter (fun c : string => c = "orange")
            ((fun n => if decide (Some n = hl) then "orange" else "skyblue")
               <$> l))
  = length (base.filter (fun n => Some n = hl) l).
Proof.
  induction l as [|n l IH]; [done|].
  rewrite fmap_cons, !filter_cons.
  destruct (decide (Some n = hl)) as [Heq|Hne].
  - rewrite decide_True by done. simpl. by rewrite IH.
  - rewrite decide_False by done. done.
Qed.

(** C6.  For the graph built from any description (nodes, then edges),
    [draw] colours exactly one node in the accent colour when the
    highlight is the identifier of a node of the graph, and none when it
    is [None] or names no node; position by position, a node is
    ["orange"] if it is the highlight and ["skyblue"] otherwise. *)
Theorem draw_highlights_one (c : config) (highlight : option string) :
  let d := build_dag c in
  PipelineDAG.highlighted (PipelineDAG.draw highlight d)
  = match highlight with
    | Some n =>
        if bool_decide (n ∈ DiGraph.nodes (PipelineDAG.graph d)) then 1 else 0
    | None => 0
    end
  ∧ ∀ i n, DiGraph.nodes (PipelineDAG.graph d) !! i = Some n ->
      PipelineDAG.node_colors (PipelineDAG.draw highlight d) !! i
      = Some (if decide (highlight = Some n) then "orange" else "skyblue").
Proof.
  intros d. split.
  - unfold PipelineDAG.highlighted, PipelineDAG.draw. simpl.
    rewrite orange_count.
    assert (Hnd : NoDup (DiGraph.nodes (PipelineDAG.graph d))).
    { subst d. rewrite build_dag_ops. apply apply_ops_unique. }
    destruct highlight as [m|].
    + rewrite <- (count_NoDup _ m Hnd). f_equal.
      apply list_filter_iff. intros n. split; [by intros [= ->]|by intros ->].
    + generalize (DiGraph.nodes (PipelineDAG.graph d)) as l.
      induction l as [|n l IH]; [done|]. by rewrite filter_cons_False.
  - intros i n Hi. unfold PipelineDAG.draw. simpl.
    rewrite list_lookup_fmap, Hi. simpl. f_equal.
    destruct (decide (Some n = highlight)) as [<-|Hne].
    + by rewrite decide_True.
    + by rewrite decide_False.
Qed.

(** C8.  In every graph the class can produce, no identifier occurs twice
    among the nodes.  Adding a node [id] with type [t1] and then again with
    type [t2] leaves exactly one node [id]; the second call adds no node
    and the attribute of [id] is [t2]. *)
Theorem add_node_twice (ops : list dag_op) (id t1 t2 : string) :
  let d1 := PipelineDAG.add_node id t1 (apply_ops ops) in
  let d2 := PipelineDAG.add_node id t2 d1 in
  NoDup (DiGraph.nodes (PipelineDAG.graph (apply_ops ops))) ∧
  NoDup (DiGraph.nodes (PipelineDAG.graph d2)) ∧
  length (base.filter (fun n => n = id)
            (DiGraph.nodes (PipelineDAG.graph d2))) = 1 ∧
  DiGraph.nodes (PipelineDAG.graph d2) = DiGraph.nodes (PipelineDAG.graph d1) ∧
  PyDict.get id (DiGraph.node_attr (PipelineDAG.graph d2)) = Some (Some t2) ∧
  ∀ a, (id, a) ∈ DiGraph.node_attr (PipelineDAG.graph d2) -> a = Some t2.
Proof.
  intros d1 d2.
  pose proof (apply_ops_unique ops) as U0.
  pose proof (add_node_unique id t1 _ U0) as U1. fold d1 in U1.
  pose proof (add_node_unique id t2 _ U1) as U2. fold d2 in U2.
  assert (Hin1 : id ∈ DiGraph.nodes (PipelineDAG.graph d1)).
  { apply elem_of_keys_set. by left. }
  assert (Hin2 : id ∈ DiGraph.nodes (PipelineDAG.graph d2)).
  { apply elem_of_keys_set. by left. }
  assert (Hget : PyDict.get id (DiGraph.node_attr (PipelineDAG.graph d2))
                 = Some (Some t2)) by apply get_set_eq.
  split; [exact U0|]. split; [exact U2|].
  split; [by rewrite count_NoDup, bool_decide_eq_true_2|].
  split.
  - unfold d2, DiGraph.nodes. simpl. rewrite keys_set.
    by rewrite bool_decide_eq_true_2.
  - split; [exact Hget|]. intros a Ha.
    apply (get_unique _ _ _ U2) in Ha. congruence.
Qed.

(** ** Loading *)

(** C4.  When [json.load] raises on the uploaded document, whatever the
    error, the driver reports it and goes on with the built-in
    description; the graph it builds has the five nodes [read], [map1],
    [filter1], [reduce1], [output] with their types, and the four edges of
    the chain. *)
Theorem malformed_upload_gives_default (e : string) :
  select_pipeline (Some (Raised e))
  = (default_pipeline, [Error ("Invalid JSON file: " +:+ e)]) ∧
  ∃ d, load_dag (Some (Raised e)) = Some d ∧
    load_dag None = Some d ∧
    DiGraph.node_attr (PipelineDAG.graph d)
    = [("read", Some "source"); ("map1", Some "transformation");
       ("filter1", Some "transformation"); ("reduce1", Some "shuffle");
       ("output", Some "sink")] ∧
    DiGraph.edges (PipelineDAG.graph d)
    = [("read", "map1"); ("map1", "filter1"); ("filter1", "reduce1");
       ("reduce1", "output")].
Proof.
  split; [reflexivity|].
  eexists. split; [vm_compute; reflexivity|].
  split; [vm_compute; reflexivity|].
  split; vm_compute; reflexivity.
Qed.

(** * Further properties *)

(** ** Sums and groups *)

Lemma foldl_add_shift (vs : list Z) (a : Z) :
  foldl Z.add a vs = (a + foldl Z.add 0 vs)%Z.
Proof.
  revert a. induction vs as [|v vs IH]; intros a; simpl; [lia|].
  rewrite (IH (a + v)%Z), (IH (0 + v)%Z). lia.
Qed.

Lemma py_sum_cons v vs : py_sum (v :: vs) = (v + py_sum vs)%Z.
Proof. unfold py_sum. simpl. rewrite foldl_add_shift. lia. Qed.

Lemma py_sum_snoc vs v : py_sum (vs ++ [v]) = (py_sum vs + v)%Z.
Proof. unfold py_sum. by rewrite foldl_snoc. Qed.

Lemma py_sum_app vs ws : py_sum (vs ++ ws) = (py_sum vs + py_sum ws)%Z.
Proof.
  induction vs as [|v vs IH]; simpl; [done|].
  rewrite !py_sum_cons, IH. lia.
Qed.

Lemma filter_none {A} (P : A -> Prop) `{!∀ x, Decision (P x)} (l : list A) :
  (∀ x, x ∈ l -> ¬ P x) -> base.filter P l = [].
Proof.
  induction l as [|x l IH]; intros Hl; [done|].
  rewrite filter_cons_False; [|apply Hl; by left].
  apply IH. intros y Hy. apply Hl. by right.
Qed.

Lemma get_None_keys {V} (d : list (string * V)) k :
  PyDict.get k d = None ↔ k ∉ PyDict.keys d.
Proof.
  unfold PyDict.keys. induction d as [|[k' v'] d IH]; simpl.
  - split; [intros _; apply not_elem_of_nil|done].
  - rewrite not_elem_of_cons. destruct (decide (k = k')) as [->|Hne].
    + split; [done|]. by intros [? _].
    + rewrite IH. tauto.
Qed.

Lemma set_absent {V} (d : list (string * V)) k v :
  k ∉ PyDict.keys d -> PyDict.set k v d = d ++ [(k, v)].
Proof.
  unfold PyDict.keys. induction d as [|[k' v'] d IH]; simpl; [done|].
  rewrite not_elem_of_cons. intros [Hne Hout].
  rewrite decide_False by done. by rewrite IH.
Qed.

Lemma set_same {V} (d : list (string * V)) k v :
  PyDict.get k d = Some v -> PyDict.set k v d = d.
Proof.
  induction d as [|[k' v'] d IH]; simpl; [done|].
  destruct (decide (k = k')) as [->|Hne]; [by intros [= ->]|].
  intros Hg. by rewrite IH.
Qed.

Lemma get_fmap_values {V W} (f : V -> W) (d : list (string * V)) k :
  PyDict.get k ((fun '(k, v) => (k, f v)) <$> d) = f <$> PyDict.get k d.
Proof.
  induction d as [|[k' v'] d IH]; simpl; [done|].
  destruct (decide (k = k')); [done|apply IH].
Qed.

Lemma keys_fmap_values {V W} (f : V -> W) (d : list (string * V)) :
  PyDict.keys ((fun '(k, v) => (k, f v)) <$> d) = PyDict.keys d.
Proof.
  unfold PyDict.keys. rewrite <- list_fmap_compose.
  apply list_fmap_ext. by intros _ [k v] _.
Qed.

Lemma group_records_snoc rs k v :
  SparkSim.group_records (rs ++ [(k, v)])
  = PyDict.set k
      (default [] (PyDict.get k (SparkSim.group_records rs)) ++ [v])
      (SparkSim.group_records rs).
Proof. unfold SparkSim.group_records. by rewrite foldl_snoc. Qed.

Lemma first_seen_snoc l k :
  first_seen (l ++ [k])
  = if bool_decide (k ∈ first_seen l) then first_seen l else first_seen l ++ [k].
Proof.
  unfold first_seen. rewrite reverse_snoc. simpl.
  destruct (decide_rel elem_of k (reverse l)) as [Hin|Hout].
  - rewrite bool_decide_eq_true_2; [done|].
    by rewrite elem_of_reverse, elem_of_remove_dups.
  - rewrite bool_decide_eq_false_2, reverse_cons; [done|].
    by rewrite elem_of_reverse, elem_of_remove_dups.
Qed.

Lemma elem_of_first_seen l k : k ∈ first_seen l ↔ k ∈ l.
Proof.
  unfold first_seen.
  by rewrite elem_of_reverse, elem_of_remove_dups, elem_of_reverse.
Qed.

Lemma NoDup_first_seen l : NoDup (first_seen l).
Proof.
  unfold first_seen. rewrite reverse_Permutation. apply NoDup_remove_dups.
Qed.

Lemma first_seen_NoDup l : NoDup l -> first_seen l = l.
Proof.
  induction l as [|k l IH] using rev_ind; [done|].
  rewrite NoDup_app. intros (Hnd & Hout & _).
  rewrite first_seen_snoc, bool_decide_eq_false_2, IH; [done..|].
  rewrite elem_of_first_seen. intros Hin. apply (Hout _ Hin). by left.
Qed.

Lemma group_records_keys rs :
  PyDict.keys (SparkSim.group_records rs) = first_seen rs.*1.
Proof.
  induction rs as [|[k v] rs IH] using rev_ind; [done|].
  rewrite group_records_snoc, keys_set, fmap_app.
  change ([(k, v)].*1) with [k]. by rewrite first_seen_snoc, IH.
Qed.

Lemma group_records_get rs k :
  PyDict.get k (SparkSim.group_records rs)
  = if bool_decide (k ∈ rs.*1) then Some (values_of k rs) else None.
Proof.
  unfold values_of. induction rs as [|[k' v] rs IH] using rev_ind; [done|].
  rewrite group_records_snoc, fmap_app, filter_app, fmap_app. simpl.
  destruct (decide (k' = k)) as [->|Hne].
  - rewrite get_set_eq, IH, filter_cons_True by done.
    rewrite (bool_decide_eq_true_2 (k ∈ _ ++ _));
      [|apply elem_of_app; right; by left].
    case_bool_decide as Hin; simpl; [done|].
    f_equal. f_equal.
    assert (Hnil : base.filter (fun r : record => r.1 = k) rs = []);
      [|by rewrite Hnil].
    apply filter_none. intros r Hr Hk. apply Hin.
    apply list_elem_of_fmap. by exists r.
  - rewrite get_set_ne, IH, filter_cons_False by done.
    rewrite !app_nil_r.
    destruct (decide (k ∈ rs.*1)) as [Hin|Hout].
    + rewrite !bool_decide_eq_true_2; [done| |done].
      apply elem_of_app. by left.
    + rewrite !bool_decide_eq_false_2; [done| |done].
      rewrite elem_of_app, list_elem_of_singleton. by intros [?|?].
Qed.

Lemma reduce_records_keys rs : (reduce_records rs).*1 = first_seen rs.*1.
Proof.
  unfold reduce_records.
  rewrite <- group_records_keys. apply keys_fmap_values.
Qed.

Lemma reduce_records_get rs k :
  PyDict.get k (reduce_records rs)
  = if bool_decide (k ∈ rs.*1) then Some (py_sum (values_of k rs)) else None.
Proof.
  unfold reduce_records. rewrite get_fmap_values, group_records_get.
  by case_bool_decide.
Qed.

Lemma elem_of_reduce_records rs k v :
  (k, v) ∈ reduce_records rs ↔ k ∈ rs.*1 ∧ v = py_sum (values_of k rs).
Proof.
  assert (Hnd : NoDup (PyDict.keys (reduce_records rs))).
  { unfold PyDict.keys. rewrite reduce_records_keys. apply NoDup_first_seen. }
  split.
  - intros Hin. pose proof (get_unique _ _ _ Hnd Hin) as Hg.
    rewrite reduce_records_get in Hg. case_bool_decide; by simplify_eq.
  - intros [Hk ->].
    assert (Hk' : k ∈ (reduce_records rs).*1)
      by by rewrite reduce_records_keys, elem_of_first_seen.
    apply list_elem_of_fmap in Hk' as ([k' v'] & -> & Hin). simpl.
    pose proof (get_unique _ _ _ Hnd Hin) as Hg.
    rewrite reduce_records_get, bool_decide_eq_true_2 in Hg by done.
    by simplify_eq.
Qed.

Lemma reduce_records_total rs :
  py_sum (reduce_records rs).*2 = py_sum rs.*2.
Proof.
  unfold reduce_records.
  assert (Hset : ∀ (d : list (string * list Z)) k v,
    py_sum ((fun '(k, vs) => (k, py_sum vs)) <$>
              PyDict.set k (default [] (PyDict.get k d) ++ [v]) d).*2
    = (py_sum ((fun '(k, vs) => (k, py_sum vs)) <$> d).*2 + v)%Z).
  { intros d k v. induction d as [|[k' vs'] d IH].
    - unfold py_sum. simpl. lia.
    - cbn [PyDict.set PyDict.get].
      destruct (decide (k = k')) as [->|Hne];
        cbn [default id]; rewrite !fmap_cons; cbn [snd].
      + rewrite !py_sum_cons, py_sum_snoc. lia.
      + rewrite !py_sum_cons, IH. lia. }
  induction rs as [|[k v] rs IH] using rev_ind; [done|].
  rewrite group_records_snoc, Hset, IH, fmap_app, py_sum_app.
  simpl. rewrite py_sum_cons. unfold py_sum at 3. simpl. lia.
Qed.

Lemma reduce_records_NoDup rs : NoDup rs.*1 -> reduce_records rs = rs.
Proof.
  unfold reduce_records.
  induction rs as [|[k v] rs IH] using rev_ind; [done|].
  rewrite fmap_app, NoDup_app. intros (Hnd & Hout & _).
  rewrite group_records_snoc.
  assert (Hk : k ∉ rs.*1).
  { intros Hin. apply (Hout _ Hin). by left. }
  assert (Hk' : k ∉ PyDict.keys (SparkSim.group_records rs))
    by by rewrite group_records_keys, elem_of_first_seen.
  rewrite (proj2 (get_None_keys _ _) Hk'), set_absent by done.
  rewrite fmap_app, IH by done. simpl. unfold py_sum. simpl. done.
Qed.

Lemma reduce_records_idemp rs :
  reduce_records (reduce_records rs) = reduce_records rs.
Proof.
  apply reduce_records_NoDup. rewrite reduce_records_keys.
  apply NoDup_first_seen.
Qed.

(** ** Filtering and doubling *)




Lemma filter_map_records rs :
  filter_records (map_records rs) = map_records (filter_records rs).
Proof.
  unfold filter_records, map_records.
  induction rs as [|[k v] rs IH]; [done|].
  rewrite fmap_cons, !filter_cons. simpl.
  destruct (decide (k ≠ "banana")); [rewrite fmap_cons|]; by rewrite IH.
Qed.

Lemma map_records_keys rs : (map_records rs).*1 = rs.*1.
Proof.
  unfold map_records. rewrite <- list_fmap_compose.
  apply list_fmap_ext. by intros _ [k v] _.
Qed.

Lemma map_records_values rs :
  (map_records rs).*2 = (fun v => (v * 2)%Z) <$> rs.*2.
Proof.
  unfold map_records. rewrite <- !list_fmap_compose.
  apply list_fmap_ext. by intros _ [k v] _.
Qed.

Lemma py_sum_double vs :
  py_sum ((fun v => (v * 2)%Z) <$> vs) = (2 * py_sum vs)%Z.
Proof.
  induction vs as [|v vs IH]; [done|].
  rewrite fmap_cons, !py_sum_cons, IH. lia.
Qed.

Lemma values_of_map_records k rs :
  values_of k (map_records rs) = (fun v => (v * 2)%Z) <$> values_of k rs.
Proof.
  unfold values_of, map_records. induction rs as [|[k' v] rs IH]; [done|].
  rewrite fmap_cons, !filter_cons. simpl.
  destruct (decide (k' = k)); [rewrite !fmap_cons; simpl|]; by rewrite IH.
Qed.

Lemma values_of_filter_records k rs :
  k ≠ "banana" -> values_of k (filter_records rs) = values_of k rs.
Proof.
  intros Hk. unfold values_of, filter_records.
  rewrite list_filter_filter. f_equal. apply list_filter_iff.
  intros [k' v]; simpl. split; [tauto|]. by intros ->.
Qed.

(** ** The simulator as a machine on what is seen *)

Lemma transform_frame line f sim (h : gmap positive obj) orig cur lg sim' h' :
  holds sim h orig cur lg ->
  transform line f sim h = Some (sim', h') ->
  ∀ l rs0, h !! l = Some (ORecords rs0) -> h' !! l = Some (ORecords rs0).
Proof.
  intros [Ho Hd Hl Hne] Hrun l rs0 Hl0. unfold transform in Hrun.
  rewrite (bind_Some _ _ _ _ _ (logs_append_Some _ _ _ line Hl)) in Hrun.
  assert (Hld : SparkSim.logs sim ≠ SparkSim.data sim) by congruence.
  assert (Hll : SparkSim.logs sim ≠ l) by congruence.
  assert (Hd1 : <[SparkSim.logs sim := OLogs (lg ++ [line])]> h
                  !! SparkSim.data sim = Some (ORecords cur))
    by by rewrite lookup_insert_ne.
  rewrite (bind_Some _ _ _ _ _ (get_records_Some _ _ _ Hd1)) in Hrun.
  unfold bind, new_obj, ret in Hrun. simplify_eq.
  assert (Hl1 : <[SparkSim.logs sim := OLogs (lg ++ [line])]> h !! l
                = Some (ORecords rs0)) by by rewrite lookup_insert_ne.
  rewrite lookup_insert_ne; [done|]. by eapply used_not_fresh.
Qed.

Lemma reset_frame sim (h : gmap positive obj) orig cur lg sim' h' :
  holds sim h orig cur lg ->
  SparkSim.reset sim h = Some (sim', h') ->
  ∀ l rs0, h !! l = Some (ORecords rs0) -> h' !! l = Some (ORecords rs0).
Proof.
  intros [Ho Hd Hl Hne] Hrun l rs0 Hl0. unfold SparkSim.reset in Hrun.
  rewrite (bind_Some _ _ _ _ _ (list_copy_Some _ _ _ Ho)) in Hrun.
  assert (Hl1 : <[fresh (dom h) := ORecords orig]> h !! SparkSim.logs sim
                = Some (OLogs lg)).
  { rewrite lookup_insert_ne; [done|]. by eapply used_not_fresh. }
  rewrite (bind_Some _ _ _ _ _ (logs_clear_Some _ _ _ Hl1)) in Hrun.
  unfold ret in Hrun. simplify_eq.
  rewrite lookup_insert_ne by congruence.
  rewrite lookup_insert_ne; [done|]. by eapply used_not_fresh.
Qed.

(** A call does to the heap what [view_exec] does to the view, keeps the
    two fixed references, and writes no list of records in place. *)
Lemma exec_view c sim (h : gmap positive obj) orig cur lg :
  holds sim h orig cur lg ->
  ∃ sim' h', exec c sim h = Some (sim', h') ∧
    holds sim' h' orig
      (v_data (view_exec orig c (View (SparkSim.stage sim) cur lg)))
      (v_logs (view_exec orig c (View (SparkSim.stage sim) cur lg))) ∧
    SparkSim.stage sim'
      = v_stage (view_exec orig c (View (SparkSim.stage sim) cur lg)) ∧
    SparkSim.original sim' = SparkSim.original sim ∧
    SparkSim.logs sim' = SparkSim.logs sim ∧
    ∀ l rs0, h !! l = Some (ORecords rs0) -> h' !! l = Some (ORecords rs0).
Proof.
  intros Hh.
  assert (Ht : ∀ line f,
    ∃ sim' h', transform line f sim h = Some (sim', h') ∧
      holds sim' h' orig (f cur) (lg ++ [line]) ∧
      SparkSim.stage sim' = (SparkSim.stage sim + 1)%Z ∧
      SparkSim.original sim' = SparkSim.original sim ∧
      SparkSim.logs sim' = SparkSim.logs sim ∧
      ∀ l rs0, h !! l = Some (ORecords rs0) -> h' !! l = Some (ORecords rs0)).
  { intros line f.
    destruct (transform_holds line f _ _ _ _ _ Hh)
      as (sim' & h' & Hrun & Hh' & Ho & Hl & Hs & _).
    exists sim', h'. repeat (split; [done|]).
    by eapply transform_frame. }
  destruct c; simpl;
    rewrite ?map_transform, ?filter_transform, ?reduceByKey_transform;
    try apply Ht.
  - destruct (reset_holds _ _ _ _ _ Hh) as (s & h' & Hrun & ? & ? & ? & ?).
    exists s, h'. repeat (split; [done|]). by eapply reset_frame.
  - unfold next_stage. repeat case_decide;
      rewrite ?map_transform, ?filter_transform, ?reduceByKey_transform;
      try apply Ht.
    exists sim, h. by repeat (split; [done|]).
Qed.

Lemma exec_all_view cs sim (h : gmap positive obj) orig cur lg :
  holds sim h orig cur lg ->
  ∃ sim' h', exec_all cs sim h = Some (sim', h') ∧
    holds sim' h' orig
      (v_data (view_run orig cs (View (SparkSim.stage sim) cur lg)))
      (v_logs (view_run orig cs (View (SparkSim.stage sim) cur lg))) ∧
    SparkSim.stage sim'
      = v_stage (view_run orig cs (View (SparkSim.stage sim) cur lg)) ∧
    SparkSim.original sim' = SparkSim.original sim ∧
    SparkSim.logs sim' = SparkSim.logs sim ∧
    ∀ l rs0, h !! l = Some (ORecords rs0) -> h' !! l = Some (ORecords rs0).
Proof.
  revert sim h cur lg. induction cs as [|c cs IH]; intros sim h cur lg Hh.
  - exists sim, h. by repeat (split; [done|]).
  - destruct (exec_view c _ _ _ _ _ Hh)
      as (s1 & h1 & Hrun & Hh1 & Hs1 & Ho1 & Hl1 & Hf1).
    destruct (IH _ _ _ _ Hh1) as (s2 & h2 & Hrun2 & Hh2 & Hs2 & Ho2 & Hl2 & Hf2).
    exists s2, h2. simpl exec_all. rewrite (bind_Some _ _ _ _ _ Hrun).
    unfold view_run in *. simpl foldl. rewrite Hs1 in Hh2, Hs2.
    assert (Hv : ∀ v, View (v_stage v) (v_data v) (v_logs v) = v)
      by by intros [].
    rewrite Hv in Hh2, Hs2.
    split; [done|]. split; [done|]. split; [done|].
    split; [congruence|]. split; [congruence|]. auto.
Qed.

Lemma session_view cs seed (h : gmap positive obj) rs :
  h !! seed = Some (ORecords rs) ->
  ∃ sim' h', session seed cs h = Some (sim', h') ∧
    holds sim' h' rs (v_data (view_run rs cs (View 0 rs [])))
                     (v_logs (view_run rs cs (View 0 rs []))) ∧
    SparkSim.stage sim' = v_stage (view_run rs cs (View 0 rs [])) ∧
    SparkSim.original sim' = seed.
Proof.
  intros Hseed.
  destruct (init_holds _ _ _ Hseed) as (s0 & h0 & R0 & I0 & O0 & St0).
  destruct (exec_all_view cs _ _ _ _ _ I0)
    as (s1 & h1 & R1 & I1 & St1 & O1 & _).
  rewrite St0 in I1, St1.
  exists s1, h1. unfold session. rewrite (bind_Some _ _ _ _ _ R0).
  repeat (split; [done|]). congruence.
Qed.

Lemma holds_yields m sim (h h' : gmap positive obj) orig cur lg :
  m h = Some (sim, h') -> holds sim h' orig cur lg ->
  yields m h (SparkSim.stage sim) cur lg.
Proof. intros Hm [Ho Hd Hl _]. by exists sim, h'. Qed.

Lemma sample_holds : holds sample_sim sample_heap default_seed default_seed [].
Proof. by split. Qed.

Lemma yields_exec c sim (h : gmap positive obj) orig cur lg :
  holds sim h orig cur lg ->
  yields (exec c sim) h
    (v_stage (view_exec orig c (View (SparkSim.stage sim) cur lg)))
    (v_data (view_exec orig c (View (SparkSim.stage sim) cur lg)))
    (v_logs (view_exec orig c (View (SparkSim.stage sim) cur lg))).
Proof.
  intros Hh.
  destruct (exec_view c _ _ _ _ _ Hh) as (s & h' & Hrun & Hh' & Hs & _).
  rewrite <- Hs. by eapply holds_yields.
Qed.

Lemma yields_exec_all cs sim (h : gmap positive obj) orig cur lg :
  holds sim h orig cur lg ->
  yields (exec_all cs sim) h
    (v_stage (view_run orig cs (View (SparkSim.stage sim) cur lg)))
    (v_data (view_run orig cs (View (SparkSim.stage sim) cur lg)))
    (v_logs (view_run orig cs (View (SparkSim.stage sim) cur lg))).
Proof.
  intros Hh.
  destruct (exec_all_view cs _ _ _ _ _ Hh) as (s & h' & Hrun & Hh' & Hs & _).
  rewrite <- Hs. by eapply holds_yields.
Qed.

(** ** What the calls do to the lists *)



(** X2.  [map] keeps the keys and their order and doubles every value, so
    the total of the values doubles. *)
Theorem map_doubles sim (h : gmap positive obj) orig cur lg :
  holds sim h orig cur lg ->
  ∃ cur', yields (SparkSim.map sim) h (SparkSim.stage sim + 1) cur'
            (lg ++ [SparkSim.map_line]) ∧
    cur'.*1 = cur.*1 ∧
    cur'.*2 = (fun v => (v * 2)%Z) <$> cur.*2 ∧
    py_sum cur'.*2 = (2 * py_sum cur.*2)%Z.
Proof.
  intros Hh. exists (map_records cur).
  split; [exact (yields_exec Map _ _ _ _ _ Hh)|].
  split; [apply map_records_keys|].
  split; [apply map_records_values|].
  by rewrite map_records_values, py_sum_double.
Qed.

Lemma map_doubles_witness :
  ∃ cur', yields (SparkSim.map sample_sim) sample_heap
            (SparkSim.stage sample_sim + 1) cur' ([] ++ [SparkSim.map_line]) ∧
    cur'.*1 = default_seed.*1 ∧
    cur'.*2 = (fun v => (v * 2)%Z) <$> default_seed.*2 ∧
    py_sum cur'.*2 = (2 * py_sum default_seed.*2)%Z.
Proof.
  apply (map_doubles sample_sim sample_heap default_seed default_seed []). by split.
Defined.



(** X4.  [reduceByKey] leaves one record per key, the keys in the order of
    their first occurrence; the value of a key is the sum of the values it
    had, and the total of all values is unchanged. *)
Theorem reduce_groups_by_key sim (h : gmap positive obj) orig cur lg :
  holds sim h orig cur lg ->
  ∃ cur', yields (SparkSim.reduceByKey sim) h (SparkSim.stage sim + 1) cur'
            (lg ++ [SparkSim.reduce_line]) ∧
    cur'.*1 = first_seen cur.*1 ∧
    NoDup cur'.*1 ∧
    (∀ k, k ∈ cur'.*1 ↔ k ∈ cur.*1) ∧
    (∀ k v, (k, v) ∈ cur' ↔ k ∈ cur.*1 ∧ v = py_sum (values_of k cur)) ∧
    py_sum cur'.*2 = py_sum cur.*2.
Proof.
  intros Hh. exists (reduce_records cur).
  split; [exact (yields_exec ReduceByKey _ _ _ _ _ Hh)|].
  split; [apply reduce_records_keys|].
  split; [rewrite reduce_records_keys; apply NoDup_first_seen|].
  split; [intros k; by rewrite reduce_records_keys, elem_of_first_seen|].
  split; [apply elem_of_reduce_records|apply reduce_records_total].
Qed.

Lemma reduce_groups_by_key_witness :
  ∃ cur', yields (SparkSim.reduceByKey sample_sim) sample_heap
            (SparkSim.stage sample_sim + 1) cur'
            ([] ++ [SparkSim.reduce_line]) ∧
    cur'.*1 = first_seen default_seed.*1 ∧
    NoDup cur'.*1 ∧
    (∀ k, k ∈ cur'.*1 ↔ k ∈ default_seed.*1) ∧
    (∀ k v, (k, v) ∈ cur' ↔
        k ∈ default_seed.*1 ∧ v = py_sum (values_of k default_seed)) ∧
    py_sum cur'.*2 = py_sum default_seed.*2.
Proof.
  apply (reduce_groups_by_key sample_sim sample_heap default_seed
           default_seed []). by split.
Defined.

(** X5.  [reduceByKey] gives back the elements it found when no key occurs
    twice; hence a second [reduceByKey] changes the elements no further. *)
Theorem reduce_fixed_on_distinct_keys sim (h : gmap positive obj)
    orig cur lg :
  holds sim h orig cur lg ->
  ∃ cur', yields (SparkSim.reduceByKey sim) h (SparkSim.stage sim + 1) cur'
            (lg ++ [SparkSim.reduce_line]) ∧
    (NoDup cur.*1 -> cur' = cur) ∧
    yields (exec_all [ReduceByKey; ReduceByKey] sim) h
      (SparkSim.stage sim + 1 + 1) cur'
      ((lg ++ [SparkSim.reduce_line]) ++ [SparkSim.reduce_line]).
Proof.
  intros Hh. exists (reduce_records cur).
  split; [exact (yields_exec ReduceByKey _ _ _ _ _ Hh)|].
  split; [apply reduce_records_NoDup|].
  pose proof (yields_exec_all [ReduceByKey; ReduceByKey] _ _ _ _ _ Hh) as Hy.
  unfold view_run in Hy. simpl in Hy. by rewrite reduce_records_idemp in Hy.
Qed.

Lemma reduce_fixed_on_distinct_keys_witness :
  ∃ cur', yields (SparkSim.reduceByKey sample_sim) sample_heap
            (SparkSim.stage sample_sim + 1) cur'
            ([] ++ [SparkSim.reduce_line]) ∧
    (NoDup default_seed.*1 -> cur' = default_seed) ∧
    yields (exec_all [ReduceByKey; ReduceByKey] sample_sim) sample_heap
      (SparkSim.stage sample_sim + 1 + 1) cur'
      (([] ++ [SparkSim.reduce_line]) ++ [SparkSim.reduce_line]).
Proof.
  apply (reduce_fixed_on_distinct_keys sample_sim sample_heap default_seed
           default_seed []). by split.
Defined.

(** X6.  [map] and [filter] commute on the elements: called in either
    order they leave the same working list (the log tells the order). *)
Theorem map_filter_commute sim (h : gmap positive obj) orig cur lg :
  holds sim h orig cur lg ->
  ∃ cur',
    yields (exec_all [Map; Filter] sim) h (SparkSim.stage sim + 1 + 1) cur'
      ((lg ++ [SparkSim.map_line]) ++ [SparkSim.filter_line]) ∧
    yields (exec_all [Filter; Map] sim) h (SparkSim.stage sim + 1 + 1) cur'
      ((lg ++ [SparkSim.filter_line]) ++ [SparkSim.map_line]).
Proof.
  intros Hh. exists (filter_records (map_records cur)). split.
  - exact (yields_exec_all [Map; Filter] _ _ _ _ _ Hh).
  - rewrite filter_map_records.
    exact (yields_exec_all [Filter; Map] _ _ _ _ _ Hh).
Qed.

Lemma map_filter_commute_witness :
  ∃ cur',
    yields (exec_all [Map; Filter] sample_sim) sample_heap
      (SparkSim.stage sample_sim + 1 + 1) cur'
      (([] ++ [SparkSim.map_line]) ++ [SparkSim.filter_line]) ∧
    yields (exec_all [Filter; Map] sample_sim) sample_heap
      (SparkSim.stage sample_sim + 1 + 1) cur'
      (([] ++ [SparkSim.filter_line]) ++ [SparkSim.map_line]).
Proof.
  apply (map_filter_commute sample_sim sample_heap default_seed
           default_seed []). by split.
Defined.

(** ** Sessions *)

Lemma view_exec_loglen orig c v :
  Z.of_nat (length (v_logs v)) = v_stage v ->
  Z.of_nat (length (v_logs (view_exec orig c v))) = v_stage (view_exec orig c v).
Proof.
  intros Hv. destruct c; simpl; repeat case_decide; simpl;
    rewrite ?length_app; simpl; lia.
Qed.

Lemma view_run_loglen orig cs v :
  Z.of_nat (length (v_logs v)) = v_stage v ->
  Z.of_nat (length (v_logs (view_run orig cs v)))
  = v_stage (view_run orig cs v).
Proof.
  unfold view_run. revert v. induction cs as [|c cs IH]; intros v Hv; [done|].
  simpl. by apply IH, view_exec_loglen.
Qed.

(** Under the two buttons the view is one of four, fixed by the seed. *)
Lemma view_exec_button rs c st :
  is_button c = true -> (0 ≤ st ≤ 3)%Z ->
  ∃ st', (0 ≤ st' ≤ 3)%Z ∧
    view_exec rs c (View st (staged rs st) (take (Z.to_nat st) pipeline_log))
    = View st' (staged rs st') (take (Z.to_nat st') pipeline_log).
Proof.
  intros Hb Hst. destruct c; try done; simpl.
  - by exists 0%Z.
  - assert (Hcases : st = 0%Z ∨ st = 1%Z ∨ st = 2%Z ∨ st = 3%Z) by lia.
    destruct Hcases as [->|[->|[->| ->]]]; simpl.
    + by exists 1%Z.
    + by exists 2%Z.
    + by exists 3%Z.
    + by exists 3%Z.
Qed.

Lemma view_run_button rs cs st :
  forallb is_button cs = true -> (0 ≤ st ≤ 3)%Z ->
  ∃ st', (0 ≤ st' ≤ 3)%Z ∧
    view_run rs cs (View st (staged rs st) (take (Z.to_nat st) pipeline_log))
    = View st' (staged rs st') (take (Z.to_nat st') pipeline_log).
Proof.
  unfold view_run. revert st.
  induction cs as [|c cs IH]; intros st Hb Hst; simpl in *.
  - by exists st.
  - apply andb_prop in Hb as [Hc Hcs].
    destruct (view_exec_button rs c st Hc Hst) as (st1 & Hst1 & ->).
    by apply IH.
Qed.

Lemma view_run_reset orig cs1 cs2 v :
  view_run orig (cs1 ++ Reset :: cs2) v = view_run orig cs2 (View 0 orig []).
Proof. unfold view_run. by rewrite foldl_app. Qed.

Lemma filter_records_keys rs :
  (filter_records rs).*1 = base.filter (fun k : string => k ≠ "banana") rs.*1.
Proof.
  unfold filter_records. induction rs as [|[k v] rs IH]; [done|].
  rewrite fmap_cons, !filter_cons. simpl.
  destruct (decide (k ≠ "banana")); [rewrite fmap_cons|]; by rewrite IH.
Qed.

(** X7.  Whatever calls were made since construction, the stage counter
    equals the number of lines in the log; so the page shows "No stages
    executed yet." exactly when the counter is 0. *)
Theorem log_counts_stages (h : gmap positive obj) (seed : positive)
    (rs : list record) (cs : list call) :
  h !! seed = Some (ORecords rs) ->
  ∃ sim h' lg p,
    session seed cs h = Some (sim, h') ∧
    h' !! SparkSim.logs sim = Some (OLogs lg) ∧
    SparkSim.stage sim = Z.of_nat (length lg) ∧
    log_panel sim h' = Some (p, h') ∧
    (p = Info "No stages executed yet." ↔ SparkSim.stage sim = 0%Z).
Proof.
  intros Hseed.
  destruct (session_view cs _ _ _ Hseed) as (sim & h' & Hrun & Hh & Hs & _).
  pose proof (view_run_loglen rs cs (View 0 rs []) eq_refl) as Hlen.
  rewrite <- Hs in Hlen.
  set (lg := v_logs (view_run rs cs (View 0 rs []))) in *.
  pose proof (holds_logs _ _ _ _ _ Hh) as Hl.
  exists sim, h', lg,
    (match lg with
     | [] => Info "No stages executed yet."
     | _ => Code (py_join PipelineDAG.newline lg)
     end).
  split; [done|]. split; [done|]. split; [done|]. split.
  - unfold log_panel. rewrite (bind_Some _ _ _ _ _ (get_logs_Some _ _ _ Hl)).
    by destruct lg.
  - rewrite <- Hlen. destruct lg; simpl; split; try done; lia.
Qed.

Lemma log_counts_stages_witness :
  ∃ sim h' lg p,
    session 1 [Map; Map; Reset; Filter] sample_heap = Some (sim, h') ∧
    h' !! SparkSim.logs sim = Some (OLogs lg) ∧
    SparkSim.stage sim = Z.of_nat (length lg) ∧
    log_panel sim h' = Some (p, h') ∧
    (p = Info "No stages executed yet." ↔ SparkSim.stage sim = 0%Z).
Proof.
  apply (log_counts_stages sample_heap 1 default_seed
           [Map; Map; Reset; Filter]).
  vm_compute. reflexivity.
Defined.

(** X8.  A session driven by the two buttons alone keeps the stage counter
    between 0 and 3; at stage [st] the working list holds the seed after
    the first [st] steps of map, filter, reduceByKey, and the log is the
    first [st] lines of the run. *)
Theorem button_sessions (h : gmap positive obj) (seed : positive)
    (rs : list record) (cs : list call) :
  h !! seed = Some (ORecords rs) ->
  forallb is_button cs = true ->
  ∃ st, (0 ≤ st ≤ 3)%Z ∧
    yields (session seed cs) h st (staged rs st)
      (take (Z.to_nat st) pipeline_log).
Proof.
  intros Hseed Hb.
  destruct (session_view cs _ _ _ Hseed) as (sim & h' & Hrun & Hh & Hs & _).
  destruct (view_run_button rs cs 0 Hb) as (st & Hst & Hv); [lia|].
  change (View 0 (staged rs 0) (take (Z.to_nat 0) pipeline_log))
    with (View 0 rs []) in Hv.
  rewrite Hv in Hh, Hs. simpl in Hh, Hs.
  exists st. split; [done|]. destruct Hh as [_ Hd Hl _]. by exists sim, h'.
Qed.

Lemma button_sessions_witness :
  ∃ st, (0 ≤ st ≤ 3)%Z ∧
    yields (session 1 [NextStage; NextStage; Reset; NextStage]) sample_heap
      st (staged default_seed st) (take (Z.to_nat st) pipeline_log).
Proof.
  apply (button_sessions sample_heap 1 default_seed
           [NextStage; NextStage; Reset; NextStage]).
  - vm_compute. reflexivity.
  - reflexivity.
Defined.

(** X9.  A reset starts over: what is seen after any calls, a reset and
    the calls [cs2] is what is seen after the calls [cs2] on a new
    simulator. *)
Theorem reset_starts_over (h : gmap positive obj) (seed : positive)
    (rs : list record) (cs1 cs2 : list call) :
  h !! seed = Some (ORecords rs) ->
  ∃ st cur lg,
    yields (session seed (cs1 ++ Reset :: cs2)) h st cur lg ∧
    yields (session seed cs2) h st cur lg.
Proof.
  intros Hseed.
  destruct (session_view (cs1 ++ Reset :: cs2) _ _ _ Hseed)
    as (s1 & h1 & R1 & I1 & St1 & _).
  destruct (session_view cs2 _ _ _ Hseed) as (s2 & h2 & R2 & I2 & St2 & _).
  rewrite view_run_reset in I1, St1.
  exists (v_stage (view_run rs cs2 (View 0 rs []))),
         (v_data (view_run rs cs2 (View 0 rs []))),
         (v_logs (view_run rs cs2 (View 0 rs []))).
  split; [rewrite <- St1|rewrite <- St2]; by eapply holds_yields.
Qed.

Lemma reset_starts_over_witness :
  ∃ st cur lg,
    yields (session 1 ([Filter; Map] ++ Reset :: [NextStage])) sample_heap
      st cur lg ∧
    yields (session 1 [NextStage]) sample_heap st cur lg.
Proof.
  apply (reset_starts_over sample_heap 1 default_seed [Filter; Map]
           [NextStage]).
  vm_compute. reflexivity.
Defined.

Lemma pipeline_keys rs :
  (reduce_records (filter_records (map_records rs))).*1
  = first_seen (base.filter (fun k : string => k ≠ "banana") rs.*1).
Proof.
  by rewrite reduce_records_keys, filter_records_keys, map_records_keys.
Qed.

(** X10.  Three presses of "Next Stage" on a new simulator, whatever the
    seed: the working list has one record for each key of the seed other
    than ["banana"], in the order of first occurrence, whose value is
    twice the sum of the values the seed has under that key. *)
Theorem full_run_on_any_seed (h : gmap positive obj) (seed : positive)
    (rs : list record) :
  h !! seed = Some (ORecords rs) ->
  ∃ cur,
    yields (session seed [NextStage; NextStage; NextStage]) h 3 cur
      pipeline_log ∧
    cur.*1 = first_seen (base.filter (fun k : string => k ≠ "banana") rs.*1) ∧
    (∀ k v, (k, v) ∈ cur ↔
       k ∈ rs.*1 ∧ k ≠ "banana" ∧ v = (2 * py_sum (values_of k rs))%Z).
Proof.
  intros Hseed.
  destruct (session_view [NextStage; NextStage; NextStage] _ _ _ Hseed)
    as (sim & h' & Hrun & Hh & Hs & _).
  unfold view_run in Hh, Hs. simpl in Hh, Hs.
  exists (reduce_records (filter_records (map_records rs))).
  split; [destruct Hh as [_ Hd Hl _]; by exists sim, h'|].
  split; [apply pipeline_keys|].
  intros k v. rewrite elem_of_reduce_records, filter_records_keys,
    list_elem_of_filter, map_records_keys.
  split.
  - intros [[Hk Hin] ->]. split; [done|]. split; [done|].
    by rewrite values_of_filter_records, values_of_map_records,
      py_sum_double.
  - intros (Hin & Hk & ->). split; [done|].
    by rewrite values_of_filter_records, values_of_map_records,
      py_sum_double.
Qed.

Lemma full_run_on_any_seed_witness :
  ∃ cur,
    yields (session 1 [NextStage; NextStage; NextStage]) sample_heap 3 cur
      pipeline_log ∧
    cur.*1 = first_seen (base.filter (fun k : string => k ≠ "banana")
                           default_seed.*1) ∧
    (∀ k v, (k, v) ∈ cur ↔
       k ∈ default_seed.*1 ∧ k ≠ "banana" ∧
       v = (2 * py_sum (values_of k default_seed))%Z).
Proof.
  apply (full_run_on_any_seed sample_heap 1 default_seed).
  vm_compute. reflexivity.
Defined.

(** X11.  In a session driven by the two buttons the metrics panel is
    absent until the stage counter is 3; then "Total Unique Keys" is the
    number of distinct keys of the seed other than ["banana"]. *)
Theorem unique_keys_metric (h : gmap positive obj) (seed : positive)
    (rs : list record) (cs : list call) :
  h !! seed = Some (ORecords rs) ->
  forallb is_button cs = true ->
  ∃ sim h' r,
    session seed cs h = Some (sim, h') ∧
    show_metric TotalUniqueKeys sim h' = Some (r, h') ∧
    (r = None ↔ (SparkSim.stage sim < 3)%Z) ∧
    (SparkSim.stage sim = 3%Z ->
     r = Some (Z.of_nat (length (first_seen
           (base.filter (fun k : string => k ≠ "banana") rs.*1))))).
Proof.
  intros Hseed Hb.
  destruct (session_view cs _ _ _ Hseed) as (sim & h' & Hrun & Hh & Hs & _).
  destruct (view_run_button rs cs 0 Hb) as (st & Hst & Hv); [lia|].
  change (View 0 (staged rs 0) (take (Z.to_nat 0) pipeline_log))
    with (View 0 rs []) in Hv.
  rewrite Hv in Hh, Hs. simpl in Hh, Hs.
  pose proof (holds_data _ _ _ _ _ Hh) as Hd.
  exists sim, h'. unfold show_metric.
  destruct (decide (3 ≤ SparkSim.stage sim)%Z) as [Hge|Hlt].
  - rewrite (bind_Some _ _ _ _ _ (get_records_Some _ _ _ Hd)).
    eexists. split; [done|]. split; [done|]. split; [split; [done|lia]|].
    intros _. assert (st = 3%Z) as -> by lia. unfold ret. do 2 f_equal.
    change (staged rs 3) with (reduce_records (filter_records (map_records rs))).
    by rewrite <- pipeline_keys, length_fmap.
  - exists None. split; [done|]. split; [done|]. split; [split; [lia|done]|lia].
Qed.

Lemma unique_keys_metric_witness :
  ∃ sim h' r,
    session 1 [NextStage; Reset; NextStage; NextStage; NextStage] sample_heap
      = Some (sim, h') ∧
    show_metric TotalUniqueKeys sim h' = Some (r, h') ∧
    (r = None ↔ (SparkSim.stage sim < 3)%Z) ∧
    (SparkSim.stage sim = 3%Z ->
     r = Some (Z.of_nat (length (first_seen
           (base.filter (fun k : string => k ≠ "banana")
              default_seed.*1))))).
Proof.
  apply (unique_keys_metric sample_heap 1 default_seed
           [NextStage; Reset; NextStage; NextStage; NextStage]).
  - vm_compute. reflexivity.
  - reflexivity.
Defined.

(** ** Well-formed graphs *)

Lemma get_elem {V} (d : list (string * V)) k v :
  PyDict.get k d = Some v -> (k, v) ∈ d.
Proof.
  induction d as [|[k' v'] d IH]; simpl; [done|].
  destruct (decide (k = k')) as [->|Hne].
  - intros [= ->]. by left.
  - intros Hg. right. by apply IH.
Qed.

Lemma get_Some_keys {V} (d : list (string * V)) k :
  is_Some (PyDict.get k d) ↔ k ∈ PyDict.keys d.
Proof.
  destruct (PyDict.get k d) as [v|] eqn:Hg.
  - split; [intros _|by eexists].
    apply list_elem_of_fmap. exists (k, v). split; [done|by apply get_elem].
  - split; [by intros [? [=]]|]. intros Hin.
    by apply get_None_keys in Hg.
Qed.

Lemma get_set {V} (d : list (string * V)) k k' v :
  PyDict.get k' (PyDict.set k v d)
  = if decide (k = k') then Some v else PyDict.get k' d.
Proof.
  destruct (decide (k = k')) as [->|Hne];
    [apply get_set_eq|by apply get_set_ne].
Qed.

Lemma contains_spec {V} (d : list (string * V)) k :
  PyDict.contains k d = true ↔ k ∈ PyDict.keys d.
Proof. unfold PyDict.contains. apply bool_decide_eq_true. Qed.

Lemma succs_touch n adj a :
  PyDict.keys (default [] (PyDict.get a (DiGraph.touch n adj)))
  = PyDict.keys (default [] (PyDict.get a adj)).
Proof.
  unfold DiGraph.touch.
  destruct (PyDict.contains n adj) eqn:Hc; [done|].
  rewrite get_set. destruct (decide (n = a)) as [->|Hne]; [|done].
  assert (Hn : PyDict.get a adj = None); [|by rewrite Hn].
  apply get_None_keys. rewrite <- contains_spec. by rewrite Hc.
Qed.

Lemma keys_touch n adj :
  PyDict.keys (DiGraph.touch n adj)
  = if bool_decide (n ∈ PyDict.keys adj) then PyDict.keys adj
    else PyDict.keys adj ++ [n].
Proof.
  unfold DiGraph.touch, PyDict.contains.
  case_bool_decide as Hin; [done|].
  by rewrite keys_set, bool_decide_eq_false_2.
Qed.

Lemma succs_add_node n ty g a :
  succs (DiGraph.add_node n ty g) a = succs g a.
Proof. apply succs_touch. Qed.

Lemma succs_ensure_node n g a :
  succs (DiGraph.ensure_node n g) a = succs g a.
Proof.
  unfold succs, DiGraph.ensure_node.
  destruct (PyDict.contains n (DiGraph.succ g)) eqn:Hc; [done|]. simpl.
  rewrite get_set. destruct (decide (n = a)) as [->|Hne]; [|done].
  assert (Hn : PyDict.get a (DiGraph.succ g) = None); [|by rewrite Hn].
  apply get_None_keys. rewrite <- contains_spec. by rewrite Hc.
Qed.

Lemma succs_add_edge u v g a :
  succs (DiGraph.add_edge u v g) a
  = if decide (u = a)
    then (if bool_decide (v ∈ succs g u) then succs g u else succs g u ++ [v])
    else succs g a.
Proof.
  unfold succs at 1. unfold DiGraph.add_edge. simpl. rewrite get_set.
  destruct (decide (u = a)) as [->|Hne]; simpl.
  - rewrite keys_set.
    fold (succs (DiGraph.ensure_node v (DiGraph.ensure_node a g)) a).
    by rewrite !succs_ensure_node.
  - fold (succs (DiGraph.ensure_node v (DiGraph.ensure_node u g)) a).
    by rewrite !succs_ensure_node.
Qed.

Lemma elem_of_succs_add_edge u v g a b :
  b ∈ succs (DiGraph.add_edge u v g) a ↔ (a = u ∧ b = v) ∨ b ∈ succs g a.
Proof.
  rewrite succs_add_edge. destruct (decide (u = a)) as [->|Hne].
  - case_bool_decide as Hin.
    + split; [by right|]. by intros [[_ ->]|?].
    + rewrite elem_of_app, list_elem_of_singleton.
      split; [intros [?| ->]; [by right|by left]|].
      intros [[_ ->]|?]; [by right|by left].
  - split; [by right|]. by intros [[-> _]|?].
Qed.

Lemma nodes_ensure_node n g :
  PyDict.keys (DiGraph.succ g) = PyDict.keys (DiGraph.node_attr g) ->
  DiGraph.nodes (DiGraph.ensure_node n g)
  = (if bool_decide (n ∈ DiGraph.nodes g) then DiGraph.nodes g
     else DiGraph.nodes g ++ [n]) ∧
  PyDict.keys (DiGraph.succ (DiGraph.ensure_node n g))
  = PyDict.keys (DiGraph.node_attr (DiGraph.ensure_node n g)).
Proof.
  intros Hsync. unfold DiGraph.ensure_node, DiGraph.nodes, PyDict.contains.
  rewrite Hsync. case_bool_decide as Hin; [done|]. simpl.
  rewrite !keys_set, Hsync. by rewrite bool_decide_eq_false_2.
Qed.

Lemma elem_of_nodes_ensure_node n g m :
  PyDict.keys (DiGraph.succ g) = PyDict.keys (DiGraph.node_attr g) ->
  m ∈ DiGraph.nodes (DiGraph.ensure_node n g) ↔ m = n ∨ m ∈ DiGraph.nodes g.
Proof.
  intros Hsync. rewrite (proj1 (nodes_ensure_node n g Hsync)).
  case_bool_decide as Hin.
  - split; [by right|]. by intros [->|?].
  - rewrite elem_of_app, list_elem_of_singleton. tauto.
Qed.

Lemma ensure_node_ok n g : graph_ok g -> graph_ok (DiGraph.ensure_node n g).
Proof.
  intros [Hnd Hsync Hs Hc].
  destruct (nodes_ensure_node n g Hsync) as [Hn Hsync'].
  split.
  - by apply ensure_node_unique.
  - done.
  - intros a. by rewrite succs_ensure_node.
  - intros a b. rewrite succs_ensure_node, !elem_of_nodes_ensure_node by done.
    intros Hb. destruct (Hc a b Hb). auto.
Qed.

Lemma add_node_ok n ty g : graph_ok g -> graph_ok (DiGraph.add_node n ty g).
Proof.
  intros [Hnd Hsync Hs Hc]. split.
  - by apply NoDup_keys_set.
  - simpl. by rewrite keys_touch, keys_set, Hsync.
  - intros a. by rewrite succs_add_node.
  - intros a b. rewrite succs_add_node. unfold DiGraph.nodes. simpl.
    rewrite !elem_of_keys_set. intros Hb. destruct (Hc a b Hb). auto.
Qed.

Lemma nodes_add_edge u v g m :
  graph_ok g ->
  m ∈ DiGraph.nodes (DiGraph.add_edge u v g)
  ↔ m = u ∨ m = v ∨ m ∈ DiGraph.nodes g.
Proof.
  intros Hok. pose proof (ensure_node_ok u g Hok) as Hok1.
  unfold DiGraph.add_edge, DiGraph.nodes. simpl.
  fold (DiGraph.nodes (DiGraph.ensure_node v (DiGraph.ensure_node u g))).
  rewrite elem_of_nodes_ensure_node by apply Hok1.
  rewrite elem_of_nodes_ensure_node by apply Hok. tauto.
Qed.

Lemma add_edge_ok u v g : graph_ok g -> graph_ok (DiGraph.add_edge u v g).
Proof.
  intros Hok.
  pose proof (ensure_node_ok v _ (ensure_node_ok u g Hok)) as Hok2.
  assert (Hu : u ∈ PyDict.keys
                 (DiGraph.succ (DiGraph.ensure_node v (DiGraph.ensure_node u g)))).
  { rewrite (ok_sync _ Hok2).
    apply (elem_of_nodes_ensure_node v); [apply ensure_node_ok, Hok|].
    right. apply elem_of_nodes_ensure_node; [apply Hok|]. by left. }
  split.
  - apply Hok2.
  - unfold DiGraph.add_edge. simpl.
    rewrite keys_set, bool_decide_eq_true_2 by done. apply Hok2.
  - intros a. rewrite succs_add_edge. destruct (decide (u = a)); [|apply Hok].
    case_bool_decide as Hin; [apply Hok|].
    apply NoDup_app. split; [apply Hok|]. split; [|apply NoDup_singleton].
    by intros x Hx ->%list_elem_of_singleton.
  - intros a b. rewrite elem_of_succs_add_edge, !nodes_add_edge by done.
    intros [[-> ->]|Hb]; [tauto|]. destruct (ok_closed _ Hok a b Hb). tauto.
Qed.

Lemma empty_ok : graph_ok DiGraph.empty.
Proof.
  split; [constructor|done|constructor|].
  intros a b Hb. by apply elem_of_nil in Hb.
Qed.

Lemma apply_op_ok d op :
  graph_ok (PipelineDAG.graph d) -> graph_ok (PipelineDAG.graph (apply_op d op)).
Proof. destruct op; simpl; [apply add_node_ok|apply add_edge_ok]. Qed.

Lemma foldl_apply_op_ok ops d :
  graph_ok (PipelineDAG.graph d) ->
  graph_ok (PipelineDAG.graph (foldl apply_op d ops)).
Proof.
  revert d. induction ops as [|op ops IH]; intros d Hd; simpl; [done|].
  by apply IH, apply_op_ok.
Qed.

Lemma apply_ops_ok ops : graph_ok (PipelineDAG.graph (apply_ops ops)).
Proof. apply foldl_apply_op_ok, empty_ok. Qed.

Lemma elem_of_edges g a b :
  NoDup (PyDict.keys (DiGraph.succ g)) ->
  (a, b) ∈ DiGraph.edges g ↔ b ∈ succs g a.
Proof.
  intros Hnd. unfold DiGraph.edges, succs. rewrite list_elem_of_bind. split.
  - intros ([u nbrs] & Hin & Hu).
    apply list_elem_of_fmap in Hin as (b' & [= -> ->] & Hb).
    by rewrite (get_unique _ _ _ Hnd Hu).
  - intros Hb. destruct (PyDict.get a (DiGraph.succ g)) as [nbrs|] eqn:Hg;
      [|by apply elem_of_nil in Hb].
    exists (a, nbrs). split; [|by apply get_elem].
    apply list_elem_of_fmap. by exists b.
Qed.

Lemma NoDup_edges g : graph_ok g -> NoDup (DiGraph.edges g).
Proof.
  intros Hok.
  assert (Hnd : NoDup (PyDict.keys (DiGraph.succ g)))
    by (rewrite (ok_sync _ Hok); apply Hok).
  unfold DiGraph.edges. apply NoDup_bind.
  - intros [u1 n1] [u2 n2] [a b] H1 H2 Hb1 Hb2.
    apply list_elem_of_fmap in Hb1 as (? & [= -> ->] & _).
    apply list_elem_of_fmap in Hb2 as (? & [= -> _] & _).
    pose proof (get_unique _ _ _ Hnd H1) as G1.
    pose proof (get_unique _ _ _ Hnd H2) as G2. congruence.
  - intros [u nbrs] Hu. apply NoDup_fmap_2; [by intros ?? [=]|].
    pose proof (ok_succs _ Hok u) as Hs. unfold succs in Hs.
    by rewrite (get_unique _ _ _ Hnd Hu) in Hs.
  - by apply NoDup_fmap_1 in Hnd.
Qed.

Lemma edges_add_node n ty g e :
  graph_ok g ->
  e ∈ DiGraph.edges (DiGraph.add_node n ty g) ↔ e ∈ DiGraph.edges g.
Proof.
  intros Hok. pose proof (add_node_ok n ty g Hok) as Hok'. destruct e as [a b].
  rewrite !elem_of_edges, succs_add_node; [done|..].
  - rewrite (ok_sync _ Hok). apply Hok.
  - rewrite (ok_sync _ Hok'). apply Hok'.
Qed.

Lemma edges_add_edge u v g e :
  graph_ok g ->
  e ∈ DiGraph.edges (DiGraph.add_edge u v g) ↔ e = (u, v) ∨ e ∈ DiGraph.edges g.
Proof.
  intros Hok. pose proof (add_edge_ok u v g Hok) as Hok'. destruct e as [a b].
  rewrite !elem_of_edges, elem_of_succs_add_edge.
  - split; [intros [[-> ->]|?]; [by left|by right]|].
    intros [[= -> ->]|?]; [by left|by right].
  - rewrite (ok_sync _ Hok). apply Hok.
  - rewrite (ok_sync _ Hok'). apply Hok'.
Qed.

(** The attribute of a node after [ensure_node]: a new node has none. *)
Lemma attr_ensure_node n g m :
  graph_ok g ->
  PyDict.get m (DiGraph.node_attr (DiGraph.ensure_node n g))
  = if bool_decide (m ∈ DiGraph.nodes g)
    then PyDict.get m (DiGraph.node_attr g)
    else if decide (n = m) then Some None else None.
Proof.
  intros Hok. unfold DiGraph.ensure_node, PyDict.contains.
  rewrite (ok_sync _ Hok). fold (DiGraph.nodes g).
  case_bool_decide as Hn.
  - case_bool_decide as Hm; [done|].
    destruct (decide (n = m)) as [->|Hne]; [done|].
    by apply get_None_keys.
  - simpl. rewrite get_set. destruct (decide (n = m)) as [->|Hne].
    + by rewrite bool_decide_eq_false_2.
    + case_bool_decide as Hm; [done|]. by apply get_None_keys.
Qed.

Lemma attr_add_edge u v g m :
  graph_ok g ->
  PyDict.get m (DiGraph.node_attr (DiGraph.add_edge u v g))
  = if bool_decide (m ∈ DiGraph.nodes g)
    then PyDict.get m (DiGraph.node_attr g)
    else if decide (m = u ∨ m = v) then Some None else None.
Proof.
  intros Hok. pose proof (ensure_node_ok u g Hok) as Hok1.
  unfold DiGraph.add_edge. simpl.
  rewrite (attr_ensure_node v _ m Hok1), (attr_ensure_node u g m Hok).
  destruct (decide (m ∈ DiGraph.nodes g)) as [Hm|Hm].
  - rewrite bool_decide_eq_true_2; [by rewrite bool_decide_eq_true_2|].
    apply elem_of_nodes_ensure_node; [apply Hok|by right].
  - rewrite (bool_decide_eq_false_2 (m ∈ DiGraph.nodes g)) by done.
    destruct (decide (u = m)) as [->|Hu].
    + rewrite bool_decide_eq_true_2;
        [|apply elem_of_nodes_ensure_node; [apply Hok|by left]].
      rewrite decide_True; [done|by left].
    + rewrite bool_decide_eq_false_2.
      * destruct (decide (v = m)) as [->|Hv].
        -- rewrite decide_True; [done|by right].
        -- rewrite decide_False; [done|]. by intros [->| ->].
      * rewrite elem_of_nodes_ensure_node by apply Hok. by intros [->|?].
Qed.

Lemma apply_ops_snoc ops op :
  apply_ops (ops ++ [op]) = apply_op (apply_ops ops) op.
Proof. unfold apply_ops. by rewrite foldl_snoc. Qed.

Lemma edges_apply_ops ops e :
  e ∈ DiGraph.edges (PipelineDAG.graph (apply_ops ops))
  ↔ ∃ u v, e = (u, v) ∧ AddEdge u v ∈ ops.
Proof.
  induction ops as [|op ops IH] using rev_ind.
  - split; [intros He; by apply elem_of_nil in He|].
    intros (u & v & _ & Hin). by apply elem_of_nil in Hin.
  - rewrite apply_ops_snoc. pose proof (apply_ops_ok ops) as Hok.
    destruct op as [n ty|u v]; simpl.
    + rewrite edges_add_node, IH by done. split.
      * intros (u & v & -> & Hin). exists u, v. split; [done|].
        apply elem_of_app. by left.
      * intros (u & v & -> & Hin). exists u, v. split; [done|].
        apply elem_of_app in Hin as [Hin|Hin]; [done|].
        by apply list_elem_of_singleton in Hin.
    + rewrite edges_add_edge, IH by done. split.
      * intros [->|(u' & v' & -> & Hin)].
        -- exists u, v. split; [done|]. apply elem_of_app. right. by left.
        -- exists u', v'. split; [done|]. apply elem_of_app. by left.
      * intros (u' & v' & -> & Hin).
        apply elem_of_app in Hin as [Hin|Hin]; [right; by exists u', v'|].
        apply list_elem_of_singleton in Hin as [= -> ->]. by left.
Qed.

Lemma nodes_apply_ops ops n :
  n ∈ DiGraph.nodes (PipelineDAG.graph (apply_ops ops))
  ↔ (∃ ty, AddNode n ty ∈ ops) ∨
    (∃ u v, AddEdge u v ∈ ops ∧ (n = u ∨ n = v)).
Proof.
  induction ops as [|op ops IH] using rev_ind.
  - split; [intros He; by apply elem_of_nil in He|].
    intros [(ty & Hin)|(u & v & Hin & _)]; by apply elem_of_nil in Hin.
  - rewrite apply_ops_snoc. pose proof (apply_ops_ok ops) as Hok.
    destruct op as [m ty|u v]; simpl.
    + unfold DiGraph.nodes at 1. simpl. rewrite elem_of_keys_set.
      fold (DiGraph.nodes (PipelineDAG.graph (apply_ops ops))). rewrite IH.
      setoid_rewrite elem_of_app. setoid_rewrite list_elem_of_singleton.
      split.
      * intros [->|[(ty' & ?)|(u & v & ? & ?)]];
          [left; exists ty; by right|left; exists ty'; by left|].
        right. exists u, v. split; [by left|done].
      * intros [(ty' & [?|[= -> _]])|(u & v & [?|[=]] & ?)];
          [right; left; by exists ty'|by left|].
        right. right. by exists u, v.
    + rewrite nodes_add_edge, IH by done.
      setoid_rewrite elem_of_app. setoid_rewrite list_elem_of_singleton.
      split.
      * intros [->|[->|[(ty' & ?)|(u' & v' & ? & ?)]]].
        -- right. exists u, v. split; [by right|by left].
        -- right. exists u, v. split; [by right|by right].
        -- left. exists ty'. by left.
        -- right. exists u', v'. split; [by left|done].
      * intros [(ty' & [?|[=]])|(u' & v' & [?|[= -> ->]] & Hn)].
        -- right. right. left. by exists ty'.
        -- right. right. right. by exists u', v'.
        -- destruct Hn as [->| ->]; [by left|right; by left].
Qed.

(** X12.  In every graph the class can produce, no edge is listed twice
    and both ends of every edge are nodes of the graph. *)
Theorem edges_join_nodes (ops : list dag_op) :
  let g := PipelineDAG.graph (apply_ops ops) in
  NoDup (DiGraph.edges g) ∧
  ∀ u v, (u, v) ∈ DiGraph.edges g ->
         u ∈ DiGraph.nodes g ∧ v ∈ DiGraph.nodes g.
Proof.
  intros g. pose proof (apply_ops_ok ops) as Hok. fold g in Hok.
  split; [by apply NoDup_edges|].
  intros u v He. apply (ok_closed _ Hok).
  apply elem_of_edges; [|done]. rewrite (ok_sync _ Hok). apply Hok.
Qed.

Lemma keys_attributes g :
  ∀ m, m ∈ PyDict.keys (DiGraph.get_node_attributes g) ->
       m ∈ PyDict.keys (DiGraph.node_attr g).
Proof.
  intros m Hm. apply list_elem_of_fmap in Hm as ([m' ty] & -> & Hin).
  apply list_elem_of_omap in Hin as ([m'' a] & Hin & Ha).
  destruct a as [ty'|]; simplify_eq/=.
  apply list_elem_of_fmap. by exists (m', Some ty).
Qed.

Lemma get_attributes g m :
  NoDup (PyDict.keys (DiGraph.node_attr g)) ->
  PyDict.get m (DiGraph.get_node_attributes g)
  = PyDict.get m (DiGraph.node_attr g) ≫= id.
Proof.
  destruct g as [attr adj]. unfold DiGraph.get_node_attributes. simpl.
  clear adj.
  assert (Hsub : ∀ (d : list (string * option string)) k,
    k ∉ PyDict.keys d -> k ∉ PyDict.keys (DiGraph.get_node_attributes
                                            (DiGraph.Build d []))).
  { intros d k Hk Hin. by apply keys_attributes in Hin. }
  unfold PyDict.keys. induction attr as [|[k a] attr IH]; intros Hnd; [done|].
  rewrite fmap_cons in Hnd. apply NoDup_cons in Hnd as [Hk Hnd].
  unfold DiGraph.get_node_attributes in *. simpl in *.
  destruct a as [ty|]; simpl.
  - destruct (decide (m = k)); [done|by apply IH].
  - destruct (decide (m = k)) as [->|Hne]; [|by apply IH].
    simpl. apply get_None_keys. by apply Hsub.
Qed.

Lemma get_fmap_keyed {V W} (f : string -> V -> W) (d : list (string * V)) k :
  PyDict.get k ((fun '(k, v) => (k, f k v)) <$> d) = f k <$> PyDict.get k d.
Proof.
  induction d as [|[k' v'] d IH]; simpl; [done|].
  destruct (decide (k = k')) as [->|]; [done|apply IH].
Qed.

Lemma label_lookup hl d n :
  unique_nodes d ->
  PyDict.get n (PipelineDAG.custom_labels (PipelineDAG.draw hl d))
  = PipelineDAG.label n <$>
      (PyDict.get n (DiGraph.node_attr (PipelineDAG.graph d)) ≫= id).
Proof.
  intros Hnd. unfold PipelineDAG.draw. simpl.
  by rewrite (get_fmap_keyed PipelineDAG.label), get_attributes.
Qed.

(** X13.  [add_edge(u, v)] adds the edge and nothing else to the edges,
    and makes both ends nodes.  The nodes that were there keep their type;
    an end that was no node becomes one without a type, so [draw] has no
    label for it. *)
Theorem add_edge_adds_ends (ops : list dag_op) (u v : string) :
  let d := apply_ops ops in
  let d' := PipelineDAG.add_edge u v d in
  (∀ e, e ∈ DiGraph.edges (PipelineDAG.graph d')
        ↔ e = (u, v) ∨ e ∈ DiGraph.edges (PipelineDAG.graph d)) ∧
  (∀ m, m ∈ DiGraph.nodes (PipelineDAG.graph d')
        ↔ m = u ∨ m = v ∨ m ∈ DiGraph.nodes (PipelineDAG.graph d)) ∧
  (∀ m, m ∈ DiGraph.nodes (PipelineDAG.graph d) ->
        PyDict.get m (DiGraph.node_attr (PipelineDAG.graph d'))
        = PyDict.get m (DiGraph.node_attr (PipelineDAG.graph d))) ∧
  (∀ m hl, m ∉ DiGraph.nodes (PipelineDAG.graph d) ->
        PyDict.get m (PipelineDAG.custom_labels (PipelineDAG.draw hl d'))
        = None).
Proof.
  intros d d'. pose proof (apply_ops_ok ops) as Hok. fold d in Hok.
  assert (Hd' : PipelineDAG.graph d'
                = DiGraph.add_edge u v (PipelineDAG.graph d)) by done.
  split; [intros e; rewrite Hd'; by apply edges_add_edge|].
  split; [intros m; rewrite Hd'; by apply nodes_add_edge|].
  split.
  - intros m Hm. by rewrite Hd', attr_add_edge, bool_decide_eq_true_2.
  - intros m hl Hm. rewrite label_lookup; [|by apply add_edge_unique, Hok].
    rewrite Hd', attr_add_edge, bool_decide_eq_false_2 by done.
    by case_decide.
Qed.

Lemma ensure_node_present n g :
  n ∈ PyDict.keys (DiGraph.succ g) -> DiGraph.ensure_node n g = g.
Proof.
  intros Hn. unfold DiGraph.ensure_node.
  by rewrite (proj2 (contains_spec _ _) Hn).
Qed.

Lemma ensure_node_in n g :
  n ∈ PyDict.keys (DiGraph.succ (DiGraph.ensure_node n g)).
Proof.
  unfold DiGraph.ensure_node.
  destruct (PyDict.contains n (DiGraph.succ g)) eqn:Hc.
  - by apply contains_spec.
  - simpl. apply elem_of_keys_set. by left.
Qed.

(** X14.  Adding an edge a second time changes nothing at all. *)
Theorem add_edge_again (d : PipelineDAG.t) (u v : string) :
  PipelineDAG.add_edge u v (PipelineDAG.add_edge u v d)
  = PipelineDAG.add_edge u v d.
Proof.
  destruct d as [g]. unfold PipelineDAG.add_edge. simpl. f_equal.
  set (g' := DiGraph.ensure_node v (DiGraph.ensure_node u g)).
  unfold DiGraph.add_edge at 1. fold g'.
  set (g1 := DiGraph.add_edge u v g).
  assert (Hg1 : g1 = DiGraph.Build (DiGraph.node_attr g')
     (PyDict.set u (PyDict.set v tt (default [] (PyDict.get u (DiGraph.succ g'))))
        (DiGraph.succ g'))) by done.
  assert (Hu : u ∈ PyDict.keys (DiGraph.succ g1)).
  { rewrite Hg1. simpl. apply elem_of_keys_set. by left. }
  assert (Hv : v ∈ PyDict.keys (DiGraph.succ g1)).
  { rewrite Hg1. simpl. apply elem_of_keys_set. right. apply ensure_node_in. }
  rewrite (ensure_node_present u g1 Hu), (ensure_node_present v g1 Hv).
  rewrite Hg1. simpl. rewrite get_set_eq. simpl.
  rewrite (set_same (PyDict.set v tt _) v tt) by apply get_set_eq.
  by rewrite set_same by apply get_set_eq.
Qed.

(** X15.  The graph built from a description has exactly the edges of the
    description; its nodes are the listed nodes and the ends of the
    edges. *)
Theorem build_dag_edges_and_nodes (c : config) :
  (∀ e, e ∈ DiGraph.edges (PipelineDAG.graph (build_dag c)) ↔ e ∈ edges c) ∧
  (∀ n, n ∈ DiGraph.nodes (PipelineDAG.graph (build_dag c))
        ↔ n ∈ (nodes c).*1 ∨ ∃ e, e ∈ edges c ∧ (n = e.1 ∨ n = e.2)).
Proof.
  rewrite build_dag_ops.
  assert (HE : ∀ u v, AddEdge u v ∈
      ((fun '(n, ty) => AddNode n ty) <$> nodes c)
      ++ ((fun '(u, v) => AddEdge u v) <$> edges c) ↔ (u, v) ∈ edges c).
  { intros u v. rewrite elem_of_app, !list_elem_of_fmap. split.
    - intros [([n ty] & [=] & _)|([u' v'] & [= -> ->] & Hin)]; done.
    - intros Hin. right. by exists (u, v). }
  assert (HN : ∀ n ty, AddNode n ty ∈
      ((fun '(n, ty) => AddNode n ty) <$> nodes c)
      ++ ((fun '(u, v) => AddEdge u v) <$> edges c) ↔ (n, ty) ∈ nodes c).
  { intros n ty. rewrite elem_of_app, !list_elem_of_fmap. split.
    - intros [([n' ty'] & [= -> ->] & Hin)|([u' v'] & [=] & _)]; done.
    - intros Hin. left. by exists (n, ty). }
  split.
  - intros [u v]. rewrite edges_apply_ops. split.
    + intros (u' & v' & [= -> ->] & Hin). by apply HE.
    + intros Hin. exists u, v. split; [done|]. by apply HE.
  - intros n. rewrite nodes_apply_ops. split.
    + intros [(ty & Hin)|(u & v & Hin & Hn)].
      * left. apply list_elem_of_fmap. exists (n, ty).
        split; [done|]. by apply HN.
      * right. exists (u, v). split; [by apply HE|done].
    + intros [Hin|([u v] & Hin & Hn)].
      * left. apply list_elem_of_fmap in Hin as ([n' ty] & -> & Hin).
        exists ty. by apply HN.
      * right. exists u, v. split; [by apply HE|done].
Qed.

Lemma attr_add_nodes ns n :
  PyDict.get n (DiGraph.node_attr (PipelineDAG.graph
    (apply_ops ((fun '(n, ty) => AddNode n ty) <$> ns))))
  = Some <$> PyDict.get n (reverse ns).
Proof.
  induction ns as [|[k ty] ns IH] using rev_ind; [done|].
  rewrite fmap_app.
  change ((fun '(n, ty) => AddNode n ty) <$> [(k, ty)]) with [AddNode k ty].
  rewrite apply_ops_snoc, reverse_snoc. cbn [apply_op PyDict.get].
  change (DiGraph.node_attr (PipelineDAG.graph (PipelineDAG.add_node k ty ?d)))
    with (PyDict.set k (Some ty) (DiGraph.node_attr (PipelineDAG.graph d))).
  rewrite get_set, IH. destruct (decide (k = n)) as [->|Hne].
  - by rewrite decide_True.
  - by rewrite decide_False.
Qed.

Lemma typed_add_edges es d n :
  graph_ok (PipelineDAG.graph d) ->
  PyDict.get n (DiGraph.node_attr (PipelineDAG.graph
    (foldl apply_op d ((fun '(u, v) => AddEdge u v) <$> es)))) ≫= id
  = PyDict.get n (DiGraph.node_attr (PipelineDAG.graph d)) ≫= id.
Proof.
  revert d. induction es as [|[u v] es IH]; intros d Hok; [done|].
  rewrite fmap_cons. simpl foldl.
  rewrite IH by apply (apply_op_ok d (AddEdge u v) Hok).
  change (PipelineDAG.graph (PipelineDAG.add_edge u v d))
    with (DiGraph.add_edge u v (PipelineDAG.graph d)).
  rewrite attr_add_edge by done.
  case_bool_decide as Hn; [done|].
  assert (Hg : PyDict.get n (DiGraph.node_attr (PipelineDAG.graph d)) = None)
    by by apply get_None_keys.
  rewrite Hg. by case_decide.
Qed.

(** X16.  In the drawing of the graph built from a description, a listed
    node is labelled with its identifier and the type of its last entry in
    the list; an identifier that only occurs as the end of an edge, or not
    at all, has no label. *)
Theorem labels_show_last_type (c : config) (hl : option string) (n : string) :
  PyDict.get n (PipelineDAG.custom_labels (PipelineDAG.draw hl (build_dag c)))
  = PipelineDAG.label n <$> PyDict.get n (reverse (nodes c)).
Proof.
  rewrite label_lookup
    by (unfold unique_nodes; rewrite build_dag_ops; apply apply_ops_unique).
  rewrite build_dag_ops. unfold apply_ops at 1. rewrite foldl_app.
  fold (apply_ops ((fun '(n, ty) => AddNode n ty) <$> nodes c)).
  rewrite typed_add_edges by apply apply_ops_ok.
  rewrite attr_add_nodes. by destruct (PyDict.get n (reverse (nodes c))).
Qed.

(** ** The page *)

Lemma build_dag_ops_nodes c n :
  n ∈ (nodes c).*1 -> n ∈ DiGraph.nodes (PipelineDAG.graph (build_dag c)).
Proof.
  intros Hn. rewrite build_dag_ops. apply nodes_apply_ops. left.
  apply list_elem_of_fmap in Hn as ([n' ty] & -> & Hin). exists ty.
  apply elem_of_app. left. apply list_elem_of_fmap. by exists (n', ty).
Qed.

Lemma highlighted_draw hl d :
  unique_nodes d ->
  PipelineDAG.highlighted (PipelineDAG.draw hl d)
  = match hl with
    | Some n =>
        if bool_decide (n ∈ DiGraph.nodes (PipelineDAG.graph d)) then 1 else 0
    | None => 0
    end.
Proof.
  intros Hnd. unfold PipelineDAG.highlighted, PipelineDAG.draw. simpl.
  rewrite orange_count. destruct hl as [m|].
  - rewrite <- (count_NoDup _ m Hnd). f_equal.
    apply list_filter_iff. intros n. split; [by intros [= ->]|by intros ->].
  - by rewrite filter_none.
Qed.

Lemma py_index_nonneg {A} (l : list A) (i : Z) :
  (0 ≤ i)%Z -> py_index l i = l !! Z.to_nat i.
Proof. intros Hi. unfold py_index. by rewrite decide_True. Qed.

Lemma stage_nodes_listed c n : n ∈ stage_nodes c -> n ∈ (nodes c).*1.
Proof.
  unfold stage_nodes. intros Hn.
  apply list_elem_of_fmap in Hn as (x & -> & Hx).
  apply list_elem_of_filter in Hx as [_ Hx]. by apply list_elem_of_fmap_2.
Qed.

Lemma current_stage_nonneg c st :
  (0 ≤ st)%Z -> current_stage c st = Some (stage_nodes c !! Z.to_nat st).
Proof.
  intros Hst. unfold current_stage. case_decide as Hlt.
  - rewrite py_index_nonneg by done.
    destruct (lookup_lt_is_Some_2 (stage_nodes c) (Z.to_nat st)) as [n Hn];
      [lia|]. by rewrite Hn.
  - rewrite lookup_ge_None_2; [done|lia].
Qed.

(** X17.  Whatever calls were made on the simulator, the next run of the
    script draws the graph without an [IndexError]: the highlight is the
    stage node at the position of the stage counter, a node of the graph,
    when there is one, and no node otherwise. *)
Theorem page_highlights_stage_node (c : config) (h : gmap positive obj)
    (seed : positive) (rs : list record) (cs : list call) :
  h !! seed = Some (ORecords rs) ->
  ∃ sim h',
    session seed cs h = Some (sim, h') ∧
    draw_page c sim
    = Some (PipelineDAG.draw
              (stage_nodes c !! Z.to_nat (SparkSim.stage sim)) (build_dag c)) ∧
    PipelineDAG.highlighted
      (PipelineDAG.draw
         (stage_nodes c !! Z.to_nat (SparkSim.stage sim)) (build_dag c))
    = if decide (SparkSim.stage sim < Z.of_nat (length (stage_nodes c)))%Z
      then 1 else 0.
Proof.
  intros Hseed.
  destruct (session_view cs _ _ _ Hseed) as (sim & h' & Hrun & Hh & Hs & _).
  pose proof (view_run_loglen rs cs (View 0 rs []) eq_refl) as Hlen.
  rewrite <- Hs in Hlen.
  assert (Hst : (0 ≤ SparkSim.stage sim)%Z) by lia.
  exists sim, h'. split; [done|]. split.
  - unfold draw_page. by rewrite current_stage_nonneg.
  - rewrite highlighted_draw
      by (unfold unique_nodes; rewrite build_dag_ops; apply apply_ops_unique).
    case_decide as Hlt.
    + destruct (lookup_lt_is_Some_2 (stage_nodes c)
                  (Z.to_nat (SparkSim.stage sim))) as [n Hn]; [lia|].
      rewrite Hn, bool_decide_eq_true_2; [done|].
      apply build_dag_ops_nodes, stage_nodes_listed.
      by eapply list_elem_of_lookup_2.
    + rewrite lookup_ge_None_2; [done|lia].
Qed.

Lemma page_highlights_stage_node_witness :
  let c := Config [("read", "source"); ("map1", "transformation")] [] in
  ∃ sim h',
    session 1 [NextStage; NextStage] sample_heap = Some (sim, h') ∧
    draw_page c sim
    = Some (PipelineDAG.draw
              (stage_nodes c !! Z.to_nat (SparkSim.stage sim)) (build_dag c)) ∧
    PipelineDAG.highlighted
      (PipelineDAG.draw
         (stage_nodes c !! Z.to_nat (SparkSim.stage sim)) (build_dag c))
    = if decide (SparkSim.stage sim < Z.of_nat (length (stage_nodes c)))%Z
      then 1 else 0.
Proof.
  intros c.
  apply (page_highlights_stage_node c sample_heap 1 default_seed
           [NextStage; NextStage]).
  vm_compute. reflexivity.
Defined.

(** X18.  The description the driver goes on with is never a value that
    Python takes for false: it is the uploaded document when that was read
    and is not empty, and the built-in description in every other case,
    also when an empty document was read and reported as loaded. *)
Theorem pipeline_never_empty (uploaded_file : option load_result) :
  truthy (select_pipeline uploaded_file).1 = true ∧
  ((select_pipeline uploaded_file).1 = default_pipeline ∨
   uploaded_file = Some (Loaded (select_pipeline uploaded_file).1)) ∧
  (∀ doc, uploaded_file = Some (Loaded doc) ->
     (select_pipeline uploaded_file).2 = [Success "Custom DAG loaded!"] ∧
     (select_pipeline uploaded_file).1
     = if truthy doc then doc else default_pipeline).
Proof.
  destruct uploaded_file as [[e|doc]|]; unfold select_pipeline.
  - split; [done|]. split; [by left|]. by intros doc [=].
  - destruct (truthy doc) eqn:Hdoc; cbn [fst snd].
    + split; [done|]. split; [by right|]. intros ? [= <-]. by rewrite Hdoc.
    + split; [done|]. split; [by left|]. intros ? [= <-]. by rewrite Hdoc.
  - split; [done|]. split; [by left|]. by intros doc [=].
Qed.

(** X19.  The working list is a copy of the seed list: when the caller
    changes the seed list in place, the working list, the log and the
    stage counter stay as they are; only what the next reset restores
    changes. *)
Theorem seed_change_spares_working_list sim (h : gmap positive obj)
    orig cur lg (rs : list record) :
  holds sim h orig cur lg ->
  ∃ h', step (SeedMutated rs) sim h = Some (sim, h') ∧
    holds sim h' rs cur lg ∧
    yields (SparkSim.reset sim) h' 0 rs [].
Proof.
  intros Hh. pose proof Hh as [Ho Hd Hl Hne].
  exists (<[SparkSim.original sim := ORecords rs]> h).
  assert (Hh' : holds sim (<[SparkSim.original sim := ORecords rs]> h)
                  rs cur lg).
  { split; [by rewrite lookup_insert_eq|by rewrite lookup_insert_ne| |done].
    rewrite lookup_insert_ne; [done|congruence]. }
  split.
  - simpl. by rewrite (bind_Some _ _ _ _ _ (get_records_Some _ _ _ Ho)).
  - split; [done|].
    destruct (reset_holds _ _ _ _ _ Hh') as (s & h2 & Hrun & Hh2 & _ & _ & Hs).
    rewrite <- Hs. by eapply holds_yields.
Qed.

Lemma seed_change_spares_working_list_witness :
  ∃ h', step (SeedMutated [("kiwi", 5%Z)]) sample_sim sample_heap
        = Some (sample_sim, h') ∧
    holds sample_sim h' [("kiwi", 5%Z)] default_seed [] ∧
    yields (SparkSim.reset sample_sim) h' 0 [("kiwi", 5%Z)] [].
Proof.
  apply (seed_change_spares_working_list sample_sim sample_heap
           default_seed default_seed [] [("kiwi", 5%Z)]).
  by split.
Defined.
